(** * Supermarket simulation: Cashier, Balancer and Shop modules

    A shallow embedding of [supermarket_sim.cc].  Each OMNeT++ simple
    module is a record of its member variables; each member function is
    a function from the module state and the world it acts on (random
    number generator, emitted signals, sent messages) to a result.

    Conventions of the embedding.
    - [int] is a 32-bit signed integer, held in [Z].  Signed overflow,
      division by zero, an out-of-range vector index, dereferencing
      [end()] and reading an uninitialised variable have no defined
      behaviour in C++: the embedding returns [Err] there.
    - [double], [simtime_t] and the random number generator belong to
      the simulation kernel, not to this program.  They are the members
      of the [Kernel] class, and the statements hold for every kernel;
      where a statement needs a fact of floating-point arithmetic, the
      fact is a member of [KernelLaws], and where it needs that a delay
      which is not negative leads to no earlier time, the fact is a
      member of [SchedulingLaws].  [exact_kernel] is a kernel with exact
      rational arithmetic and a deterministic generator, used to run the
      model.
    - A message object is a pair of its address and its contents.
    - [EV <<], [bubble] and [sprintf] into display buffers only print;
      they are left out. *)

From stdpp Require Import base list strings numbers pretty.
From Stdlib Require Import ZArith Lia QArith Qcanon.

Open Scope Z_scope.

(** ** Results of partial operations *)

Inductive Fault :=
  | SignedOverflow
  | DivisionByZero
  | OutOfBounds
  | EmptyRange
  | AlreadyScheduled
  | ScheduleInPast
  | UninitialisedRead.

Inductive Result (A : Type) :=
  | Ok (a : A)
  | Err (f : Fault).
Arguments Ok {A} a.
Arguments Err {A} f.

Global Instance Result_ret : MRet Result := λ A a, Ok a.
Global Instance Result_bind : MBind Result := λ A B f r,
  match r with
  | Ok a => f a
  | Err e => Err e
  end.

Definition is_Ok {A} (r : Result A) : Prop := ∃ a, r = Ok a.

(** ** 32-bit signed integers *)

Definition INT_MIN : Z := - 2 ^ 31.
Definition INT_MAX : Z := 2 ^ 31 - 1.

Definition in_int (z : Z) : Prop := INT_MIN ≤ z ≤ INT_MAX.

Global Instance in_int_dec z : Decision (in_int z).
Proof. unfold in_int. apply _. Defined.

Definition int_checked (z : Z) : Result Z :=
  if decide (in_int z) then Ok z else Err SignedOverflow.

Definition int_add (a b : Z) : Result Z := int_checked (a + b).
Definition int_sub (a b : Z) : Result Z := int_checked (a - b).

(** [a % b]: the remainder of the division truncated towards zero. *)
Definition int_rem (a b : Z) : Result Z :=
  if decide (b = 0) then Err DivisionByZero
  else _ ← int_checked (Z.quot a b); Ok (Z.rem a b).

(** ** std::vector<int> *)

(** [v[i]] for an [int] index. *)
Definition vec_get (v : list Z) (i : Z) : Result Z :=
  if decide (0 ≤ i) then
    match v !! Z.to_nat i with
    | Some x => Ok x
    | None => Err OutOfBounds
    end
  else Err OutOfBounds.

(** [v[i]++] *)
Definition vec_incr (v : list Z) (i : Z) : Result (list Z) :=
  x ← vec_get v i;
  x' ← int_add x 1;
  Ok (<[Z.to_nat i := x']> v).

(** [std::min_element]: the position of the first smallest element;
    [smallest] is the position held so far, [i] the position of the head
    of the remaining range.  On an empty range the result is [end()],
    which is [begin()]. *)
Fixpoint min_element_from (smallest : nat) (vs : Z) (i : nat) (l : list Z) : nat :=
  match l with
  | [] => smallest
  | x :: l' =>
      if decide (x < vs) then min_element_from i x (S i) l'
      else min_element_from smallest vs (S i) l'
  end.

Definition min_element (l : list Z) : nat :=
  match l with
  | [] => 0%nat
  | x :: l' => min_element_from 0 x 1 l'
  end.

(** [std::max_element]: the position of the first largest element. *)
Fixpoint max_element_from (largest : nat) (vl : Z) (i : nat) (l : list Z) : nat :=
  match l with
  | [] => largest
  | x :: l' =>
      if decide (vl < x) then max_element_from i x (S i) l'
      else max_element_from largest vl (S i) l'
  end.

Definition max_element (l : list Z) : nat :=
  match l with
  | [] => 0%nat
  | x :: l' => max_element_from 0 x 1 l'
  end.

(** [*it] for an iterator at position [i]. *)
Definition deref (l : list Z) (i : nat) : Result Z :=
  match l !! i with
  | Some x => Ok x
  | None => Err EmptyRange
  end.

(** ** The simulation kernel *)

Class Kernel := {
  double : Type;
  simtime_t : Type;
  RNG : Type;
  (* double *)
  dlit : Q → double;
  double_of_int : Z → double;
  dadd : double → double → double;
  dmul : double → double → double;
  ddiv : double → double → double;
  dgt : double → double → bool;
  (* simtime_t *)
  simtime_of_int : Z → simtime_t;
  simtime_of_double : double → simtime_t;
  SIMTIME_DBL : simtime_t → double;
  simtime_add : simtime_t → simtime_t → simtime_t;
  simtime_sub : simtime_t → simtime_t → simtime_t;
  simtime_lt : simtime_t → simtime_t → bool;
  (* random numbers *)
  uniform : double → double → RNG → double * RNG;
  intuniform : Z → Z → RNG → Z * RNG;
  exponential : double → RNG → double * RNG;
}.

(** Facts about the kernel.  For IEEE binary64 on [int] values: the
    conversion is exact, so comparison agrees with the integers, [x / x]
    is one for [x] not zero, and one is neutral for [*].  For the
    generator: [intuniform(a, b)] gives an integer from [a] to [b]. *)
Class KernelLaws (K : Kernel) : Prop := {
  dgt_of_int a b :
    in_int a → in_int b →
    dgt (double_of_int a) (double_of_int b) = bool_decide (b < a);
  ddiv_diag a :
    in_int a → a ≠ 0 →
    ddiv (double_of_int a) (double_of_int a) = double_of_int 1;
  dmul_1_l x : dmul (double_of_int 1) x = x;
  intuniform_range a b g : a ≤ b → a ≤ (intuniform a b g).1 ≤ b;
}.

(** Facts about delays.  [dgt (dlit 0) d = false] says that [d] is not
    negative.  For IEEE binary64: a literal is not greater than the
    literal of a number that is not smaller, and a sum of two values
    that are not negative is not negative.  For the generator:
    [uniform(a, b)] is not negative when [a] is not negative and not
    above [b], and [exponential(mean)] is not negative for a [mean]
    above zero.  For simulation time: adding a delay that is not
    negative gives no earlier time. *)
Class SchedulingLaws (K : Kernel) : Prop := {
  dlit_le p q : Qle p q → dgt (dlit p) (dlit q) = false;
  dadd_nonneg a b :
    dgt (dlit 0) a = false → dgt (dlit 0) b = false →
    dgt (dlit 0) (dadd a b) = false;
  uniform_nonneg a b g :
    dgt (dlit 0) a = false → dgt a b = false →
    dgt (dlit 0) (uniform a b g).1 = false;
  exponential_nonneg mean g :
    dgt mean (dlit 0) = true → dgt (dlit 0) (exponential mean g).1 = false;
  schedule_ahead now d :
    dgt (dlit 0) d = false →
    simtime_lt (simtime_add now (simtime_of_double d)) now = false;
}.

Section Model.
Context {K : Kernel}.

(** ** Messages *)

(** Modelled from the spec: the declaration of [CustomerMsg], which the
    generated header [supermarket_sim_m.h] holds; the fields are those
    the accessors used in the source name. *)
Record CustomerMsg := {
  customerId : Z;
  numberOfItems : Z;
  arrivalTime : simtime_t;
  serviceStartTime : simtime_t;
  totalWaitingTime : double;
}.

Definition ptr := positive.

(** A [CustomerMsg*] that points to a live object. *)
Definition Customer : Type := ptr * CustomerMsg.

(** What [handleMessage] can be handed: the module's own timer, a
    [CustomerMsg], or a message of another class. *)
Inductive Message :=
  | SelfMessage
  | CustomerArrival (c : Customer)
  | OtherMessage.

(** ** The world a module acts on *)

Inductive SignalValue :=
  | SLong (z : Z)
  | SDouble (d : double).

(** [rng] is the generator's state, [emitted] the signal values emitted so
    far, [sent] the messages sent so far with their gate (index [-1] for
    a gate that is not a vector), [next_address] the address [new] gives
    next. *)
Record World := {
  rng : RNG;
  emitted : list (string * SignalValue);
  sent : list (string * Z * Customer);
  next_address : ptr;
}.

Definition emit (signal : string) (v : SignalValue) (w : World) : World :=
  {| rng := rng w; emitted := emitted w ++ [(signal, v)]; sent := sent w;
     next_address := next_address w |}.

Definition send (c : Customer) (gate : string) (index : Z) (w : World) : World :=
  {| rng := rng w; emitted := emitted w; sent := sent w ++ [(gate, index, c)];
     next_address := next_address w |}.

Definition draw {A} (d : RNG → A * RNG) (w : World) : A * World :=
  let '(a, g) := d (rng w) in
  (a, {| rng := g; emitted := emitted w; sent := sent w;
         next_address := next_address w |}).

(** [new CustomerMsg]: a fresh object, its fields zero. *)
Definition new_CustomerMsg (w : World) : Customer * World :=
  ((next_address w,
    {| customerId := 0; numberOfItems := 0;
       arrivalTime := simtime_of_int 0; serviceStartTime := simtime_of_int 0;
       totalWaitingTime := double_of_int 0 |}),
   {| rng := rng w; emitted := emitted w; sent := sent w;
      next_address := Pos.succ (next_address w) |}).

(** [scheduleAt(t, timer)] called at time [now]: [timer] is the pending
    time of the self-message, if it is scheduled.  The kernel refuses a
    time [t] before the current time, and refuses to schedule a message
    twice. *)
Definition scheduleAt (now t : simtime_t) (timer : option simtime_t)
  : Result (option simtime_t) :=
  if simtime_lt t now then Err ScheduleInPast
  else
    match timer with
    | None => Ok (Some t)
    | Some _ => Err AlreadyScheduled
    end.

Definition Scalars : Type := list (string * double).

Fixpoint scalar (name : string) (l : Scalars) : option double :=
  match l with
  | [] => None
  | (n, v) :: l' => if decide (n = name) then Some v else scalar name l'
  end.

(** ** Balancer *)

(** The enumerators, and the other values a [static_cast] from the
    [strategy] parameter can give. *)
Inductive BalancingStrategy :=
  | ROUND_ROBIN
  | SHORTEST_QUEUE
  | RANDOM
  | Unnamed (v : Z).

Definition strategy_of_int (v : Z) : BalancingStrategy :=
  if decide (v = 0) then ROUND_ROBIN
  else if decide (v = 1) then SHORTEST_QUEUE
  else if decide (v = 2) then RANDOM
  else Unnamed v.

Record Balancer := {
  strategy : BalancingStrategy;
  roundRobinCounter : Z;
  cashierQueueLengths : list Z;
  numCashiers : Z;
  customersForwarded : Z;
  cashierAssignments : list Z;
}.

(** [par_strategy] is the value of the [strategy] parameter and
    [gateSize_out] the size of the gate vector [out]. *)
Definition Balancer_initialize (par_strategy gateSize_out : Z) : Balancer :=
  {| strategy := strategy_of_int par_strategy;
     roundRobinCounter := 0;
     cashierQueueLengths := replicate (Z.to_nat gateSize_out) 0;
     numCashiers := gateSize_out;
     customersForwarded := 0;
     cashierAssignments := replicate (Z.to_nat gateSize_out) 0 |}.

Definition set_roundRobinCounter (n : Z) (b : Balancer) : Balancer :=
  {| strategy := strategy b;
     roundRobinCounter := n;
     cashierQueueLengths := cashierQueueLengths b;
     numCashiers := numCashiers b;
     customersForwarded := customersForwarded b;
     cashierAssignments := cashierAssignments b |}.

Definition selectCashier (b : Balancer) (w : World) : Result (Z * Balancer * World) :=
  match strategy b with
  | ROUND_ROBIN =>
      selectedCashier ← int_rem (roundRobinCounter b) (numCashiers b);
      n ← int_add (roundRobinCounter b) 1;
      Ok (selectedCashier, set_roundRobinCounter n b, w)
  | SHORTEST_QUEUE =>
      let minIt := min_element (cashierQueueLengths b) in
      Ok (Z.of_nat minIt, b, w)
  | RANDOM =>
      hi ← int_sub (numCashiers b) 1;
      let '(selectedCashier, w') := draw (intuniform 0 hi) w in
      Ok (selectedCashier, b, w')
  | Unnamed _ => Ok (0, b, w)
  end.

Definition strategyName (s : BalancingStrategy) : Result string :=
  match s with
  | ROUND_ROBIN => Ok "Round Robin"
  | SHORTEST_QUEUE => Ok "Shortest Queue"
  | RANDOM => Ok "Random"
  | Unnamed _ => Err UninitialisedRead
  end.

Definition Balancer_handleMessage (msg : Message) (b : Balancer) (w : World)
  : Result (Balancer * World) :=
  match msg with
  | CustomerArrival customer =>
      '(selectedCashier, b1, w1) ← selectCashier b w;
      _ ← strategyName (strategy b1);
      lengths ← vec_incr (cashierQueueLengths b1) selectedCashier;
      assignments ← vec_incr (cashierAssignments b1) selectedCashier;
      forwarded ← int_add (customersForwarded b1) 1;
      let b2 :=
        {| strategy := strategy b1;
           roundRobinCounter := roundRobinCounter b1;
           cashierQueueLengths := lengths;
           numCashiers := numCashiers b1;
           customersForwarded := forwarded;
           cashierAssignments := assignments |} in
      let w2 := emit "loadBalancing" (SLong selectedCashier) w1 in
      Ok (b2, send customer "out" selectedCashier w2)
  | _ => Ok (b, w)
  end.

(** The scalars [cashier<i>_assignments] for [i] from [i0], [n] of them. *)
Fixpoint assignment_scalars (assignments : list Z) (i0 : Z) (n : nat) : Result Scalars :=
  match n with
  | O => Ok []
  | S n' =>
      x ← vec_get assignments i0;
      rest ← assignment_scalars assignments (i0 + 1) n';
      Ok (("cashier" +:+ pretty i0 +:+ "_assignments", double_of_int x) :: rest)
  end.

Definition balancingEfficiency (assignments : list Z) : Result double :=
  maxAssignments ← deref assignments (max_element assignments);
  minAssignments ← deref assignments (min_element assignments);
  let maxAssignments := double_of_int maxAssignments in
  let minAssignments := double_of_int minAssignments in
  Ok (if dgt maxAssignments (double_of_int 0)
      then dmul (ddiv minAssignments maxAssignments) (double_of_int 100)
      else double_of_int 100).

Definition Balancer_finish (b : Balancer) : Result Scalars :=
  efficiency ← balancingEfficiency (cashierAssignments b);
  perCashier ← assignment_scalars (cashierAssignments b) 0 (Z.to_nat (numCashiers b));
  Ok ([("customersForwarded", double_of_int (customersForwarded b));
       ("balancingEfficiency", efficiency)] ++ perCashier).

(** The run of the Balancer on the customers that arrive, in order. *)
Fixpoint route_all (customers : list Customer) (b : Balancer) (w : World)
  : Result (Balancer * World) :=
  match customers with
  | [] => Ok (b, w)
  | customer :: rest =>
      '(b', w') ← Balancer_handleMessage (CustomerArrival customer) b w;
      route_all rest b' w'
  end.

(** The routing decisions taken so far: the gate index of every message
    sent, oldest first. *)
Definition decisions (w : World) : list Z := (λ m, m.1.2) <$> sent w.

(** The states a Balancer goes through in a run: the state after
    [initialize], and every state a message leads to. *)
Inductive Balancer_reachable : Balancer → Prop :=
  | Balancer_reachable_init par_strategy gateSize_out :
      Balancer_reachable (Balancer_initialize par_strategy gateSize_out)
  | Balancer_reachable_step b w msg b' w' :
      Balancer_reachable b →
      Balancer_handleMessage msg b w = Ok (b', w') →
      Balancer_reachable b'.

(** [x] is the smallest element of [l], and [i] the first position that
    holds it. *)
Definition first_minimum (l : list Z) (i : nat) (x : Z) : Prop :=
  l !! i = Some x ∧
  (∀ j y, l !! j = Some y → x ≤ y) ∧
  (∀ j y, (j < i)%nat → l !! j = Some y → x < y).

(** [x] is the largest element of [l]. *)
Definition maximum (l : list Z) (x : Z) : Prop :=
  x ∈ l ∧ ∀ y, y ∈ l → y ≤ x.

Definition minimum (l : list Z) (x : Z) : Prop :=
  x ∈ l ∧ ∀ y, y ∈ l → x ≤ y.

(** What holds of a round-robin Balancer for [N] cashiers after [c]
    routing decisions. *)
Definition rr_inv (N c : Z) (b : Balancer) : Prop :=
  strategy b = ROUND_ROBIN ∧
  numCashiers b = N ∧
  roundRobinCounter b = c ∧
  customersForwarded b = c ∧
  length (cashierQueueLengths b) = Z.to_nat N ∧
  length (cashierAssignments b) = Z.to_nat N ∧
  Forall (λ x, 0 ≤ x ≤ c) (cashierQueueLengths b) ∧
  Forall (λ x, 0 ≤ x ≤ c) (cashierAssignments b).

(** The indices [c mod N], [(c + 1) mod N], ..., [n] of them. *)
Definition rr_indices (N c : Z) (n : nat) : list Z :=
  (λ k, (c + Z.of_nat k) `mod` N) <$> seq 0 n.

(** ** Cashier *)

Record Cashier := {
  customerQueue : list Customer;
  processCustomerTimer : option simtime_t;
  isBusy : bool;
  cashierIndex : Z;
  currentCustomer : option Customer;
  lastServiceEndTime : simtime_t;
  totalIdleTime : simtime_t;
  customersServed : Z;
  totalServiceTime : double;
  totalItemsProcessed : Z;
}.

Definition Cashier_initialize (index : Z) (now : simtime_t) (w : World)
  : Cashier * World :=
  ({| customerQueue := [];
      processCustomerTimer := None;
      isBusy := false;
      cashierIndex := index;
      currentCustomer := None;
      lastServiceEndTime := now;
      totalIdleTime := simtime_of_int 0;
      customersServed := 0;
      totalServiceTime := dlit 0;
      totalItemsProcessed := 0 |},
   emit "queueLength" (SLong 0) w).

Definition set_customerQueue (q : list Customer) (s : Cashier) : Cashier :=
  {| customerQueue := q;
     processCustomerTimer := processCustomerTimer s;
     isBusy := isBusy s;
     cashierIndex := cashierIndex s;
     currentCustomer := currentCustomer s;
     lastServiceEndTime := lastServiceEndTime s;
     totalIdleTime := totalIdleTime s;
     customersServed := customersServed s;
     totalServiceTime := totalServiceTime s;
     totalItemsProcessed := totalItemsProcessed s |}.

Definition set_processCustomerTimer (t : option simtime_t) (s : Cashier) : Cashier :=
  {| customerQueue := customerQueue s;
     processCustomerTimer := t;
     isBusy := isBusy s;
     cashierIndex := cashierIndex s;
     currentCustomer := currentCustomer s;
     lastServiceEndTime := lastServiceEndTime s;
     totalIdleTime := totalIdleTime s;
     customersServed := customersServed s;
     totalServiceTime := totalServiceTime s;
     totalItemsProcessed := totalItemsProcessed s |}.

Definition set_totalIdleTime (t : simtime_t) (s : Cashier) : Cashier :=
  {| customerQueue := customerQueue s;
     processCustomerTimer := processCustomerTimer s;
     isBusy := isBusy s;
     cashierIndex := cashierIndex s;
     currentCustomer := currentCustomer s;
     lastServiceEndTime := lastServiceEndTime s;
     totalIdleTime := t;
     customersServed := customersServed s;
     totalServiceTime := totalServiceTime s;
     totalItemsProcessed := totalItemsProcessed s |}.

Definition setServiceStartTime (t : simtime_t) (c : Customer) : Customer :=
  (c.1, {| customerId := customerId c.2;
           numberOfItems := numberOfItems c.2;
           arrivalTime := arrivalTime c.2;
           serviceStartTime := t;
           totalWaitingTime := totalWaitingTime c.2 |}).

Definition setTotalWaitingTime (d : double) (c : Customer) : Customer :=
  (c.1, {| customerId := customerId c.2;
           numberOfItems := numberOfItems c.2;
           arrivalTime := arrivalTime c.2;
           serviceStartTime := serviceStartTime c.2;
           totalWaitingTime := d |}).

(** The loop [for (i = 0; i < items; i++) serviceTime += uniform(0.5, 2.0)],
    with [n] rounds to go. *)
Fixpoint service_loop (n : nat) (serviceTime : double) (w : World) : double * World :=
  match n with
  | O => (serviceTime, w)
  | S n' =>
      let '(u, w') := draw (uniform (dlit 0.5) (dlit 2)) w in
      service_loop n' (dadd serviceTime u) w'
  end.

Definition startService (now : simtime_t) (customer : Customer) (s : Cashier) (w : World)
  : Result (Cashier * World) :=
  let '(s1, w1) :=
    if isBusy s then (s, w)
    else
      let idleTime := simtime_sub now (lastServiceEndTime s) in
      (set_totalIdleTime (simtime_add (totalIdleTime s) idleTime) s,
       emit "idleTime" (SDouble (SIMTIME_DBL idleTime)) w) in
  let customer1 := setServiceStartTime now customer in
  let items := numberOfItems customer1.2 in
  let '(serviceTime, w2) := service_loop (Z.to_nat items) (dlit 0) w1 in
  let waitingTime := SIMTIME_DBL (simtime_sub now (arrivalTime customer1.2)) in
  let customer2 := setTotalWaitingTime waitingTime customer1 in
  let w3 := emit "waitingTime" (SDouble waitingTime) w2 in
  let w4 := emit "serviceTime" (SDouble serviceTime) w3 in
  served ← int_add (customersServed s1) 1;
  itemsProcessed ← int_add (totalItemsProcessed s1) items;
  timer ← scheduleAt now (simtime_add now (simtime_of_double serviceTime))
                     (processCustomerTimer s1);
  Ok ({| customerQueue := customerQueue s1;
         processCustomerTimer := timer;
         isBusy := true;
         cashierIndex := cashierIndex s1;
         currentCustomer := Some customer2;
         lastServiceEndTime := lastServiceEndTime s1;
         totalIdleTime := totalIdleTime s1;
         customersServed := served;
         totalServiceTime := dadd (totalServiceTime s1) serviceTime;
         totalItemsProcessed := itemsProcessed |}, w4).

Definition processNextCustomer (now : simtime_t) (s : Cashier) (w : World)
  : Result (Cashier * World) :=
  match customerQueue s with
  | customer :: rest =>
      let s1 := set_customerQueue rest s in
      let w1 := emit "queueLength" (SLong (Z.of_nat (length rest))) w in
      startService now customer s1 w1
  | [] =>
      Ok ({| customerQueue := customerQueue s;
             processCustomerTimer := processCustomerTimer s;
             isBusy := false;
             cashierIndex := cashierIndex s;
             currentCustomer := currentCustomer s;
             lastServiceEndTime := now;
             totalIdleTime := totalIdleTime s;
             customersServed := customersServed s;
             totalServiceTime := totalServiceTime s;
             totalItemsProcessed := totalItemsProcessed s |}, w)
  end.

Definition finishService (now : simtime_t) (s : Cashier) : Cashier :=
  match currentCustomer s with
  | Some _ =>
      {| customerQueue := customerQueue s;
         processCustomerTimer := processCustomerTimer s;
         isBusy := isBusy s;
         cashierIndex := cashierIndex s;
         currentCustomer := None;
         lastServiceEndTime := now;
         totalIdleTime := totalIdleTime s;
         customersServed := customersServed s;
         totalServiceTime := totalServiceTime s;
         totalItemsProcessed := totalItemsProcessed s |}
  | None => s
  end.

(** The kernel hands over [processCustomerTimer] when it is due; the timer
    is then no longer scheduled. *)
Definition Cashier_handleMessage (now : simtime_t) (msg : Message) (s : Cashier) (w : World)
  : Result (Cashier * World) :=
  match msg with
  | SelfMessage =>
      let s1 := finishService now (set_processCustomerTimer None s) in
      processNextCustomer now s1 w
  | CustomerArrival customer =>
      let s1 := set_customerQueue (customerQueue s ++ [customer]) s in
      let w1 := emit "queueLength" (SLong (Z.of_nat (length (customerQueue s1)))) w in
      if isBusy s1 then Ok (s1, w1) else processNextCustomer now s1 w1
  | OtherMessage => Ok (s, w)
  end.

Definition Cashier_finish (now : simtime_t) (s : Cashier) : Cashier * Scalars :=
  let s1 :=
    if isBusy s then s
    else
      let finalIdleTime := simtime_sub now (lastServiceEndTime s) in
      set_totalIdleTime (simtime_add (totalIdleTime s) finalIdleTime) s in
  let simulationTime := SIMTIME_DBL now in
  let utilizationRate :=
    if dgt simulationTime (double_of_int 0)
    then dmul (ddiv (totalServiceTime s1) simulationTime) (double_of_int 100)
    else double_of_int 0 in
  let idleRate :=
    if dgt simulationTime (double_of_int 0)
    then dmul (ddiv (SIMTIME_DBL (totalIdleTime s1)) simulationTime) (double_of_int 100)
    else double_of_int 0 in
  let averageServiceTime :=
    if decide (0 < customersServed s1)
    then ddiv (totalServiceTime s1) (double_of_int (customersServed s1))
    else double_of_int 0 in
  (set_processCustomerTimer None s1,
   [("customersServed", double_of_int (customersServed s1));
    ("totalServiceTime", totalServiceTime s1);
    ("totalIdleTime", SIMTIME_DBL (totalIdleTime s1));
    ("utilizationRate", utilizationRate);
    ("idleRate", idleRate);
    ("averageServiceTime", averageServiceTime);
    ("queueLengthAtEnd", double_of_int (Z.of_nat (length (customerQueue s1))));
    ("totalItemsProcessed", double_of_int (totalItemsProcessed s1))]).

(** [n] successive draws of [uniform(0.5, 2.0)], each from the state the
    one before left, and the state after the last. *)
Fixpoint uniform_draws (n : nat) (g : RNG) : list double * RNG :=
  match n with
  | O => ([], g)
  | S n' =>
      let '(u, g') := uniform (dlit 0.5) (dlit 2) g in
      let '(us, g'') := uniform_draws n' g' in
      (u :: us, g'')
  end.

(** The messages the kernel can hand to a Cashier in state [s] at time
    [now]: its timer when it is due, and a customer object the Cashier
    does not hold already (a module only receives what another module
    sent, and the Cashier sends nothing). *)
Definition Cashier_deliverable (now : simtime_t) (s : Cashier) (msg : Message) : Prop :=
  match msg with
  | SelfMessage => processCustomerTimer s = Some now
  | CustomerArrival customer =>
      (customer.1 ∉ (customerQueue s).*1) ∧
      (∀ current, currentCustomer s = Some current → current.1 ≠ customer.1)
  | OtherMessage => True
  end.

(** The states of a Cashier at the boundaries of its event handler. *)
Inductive Cashier_reachable : Cashier → Prop :=
  | Cashier_reachable_init index now w :
      Cashier_reachable (Cashier_initialize index now w).1
  | Cashier_reachable_step s w now msg s' w' :
      Cashier_reachable s →
      Cashier_deliverable now s msg →
      Cashier_handleMessage now msg s w = Ok (s', w') →
      Cashier_reachable s'.

Definition Cashier_inv (s : Cashier) : Prop :=
  (isBusy s = true ↔ is_Some (currentCustomer s)) ∧
  (isBusy s = true ↔ is_Some (processCustomerTimer s)) ∧
  (isBusy s = false → customerQueue s = []) ∧
  NoDup (customerQueue s).*1 ∧
  (∀ current, currentCustomer s = Some current →
              (current.1 ∉ (customerQueue s).*1)).

(** The Cashier is in state [s1] and has just become idle at [t0]: it was
    initialized at [t0], or a service ended at [t0] with nobody queued. *)
Definition became_idle_at (t0 : simtime_t) (s1 : Cashier) : Prop :=
  (∃ index w, s1 = (Cashier_initialize index t0 w).1) ∨
  (∃ s w w', customerQueue s = [] ∧
             Cashier_handleMessage t0 SelfMessage s w = Ok (s1, w')).

(** ** Shop *)

Record Shop := {
  generateCustomerTimer : option simtime_t;
  customerCounter : Z;
  arrivalInterval : double;
  customersGenerated : Z;
}.

(** [par_arrivalInterval] is the value of the [arrivalInterval] parameter. *)
Definition Shop_initialize (par_arrivalInterval : double) (now : simtime_t)
  : Result Shop :=
  timer ← scheduleAt now (simtime_add now (simtime_of_double (dlit 0.1))) None;
  Ok {| generateCustomerTimer := timer;
        customerCounter := 1;
        arrivalInterval := par_arrivalInterval;
        customersGenerated := 0 |}.

Definition generateCustomer (now : simtime_t) (s : Shop) (w : World)
  : Result (Shop * World) :=
  let '(customer, w1) := new_CustomerMsg w in
  let id := customerCounter s in
  counter ← int_add (customerCounter s) 1;
  let '(items, w2) := draw (intuniform 1 25) w1 in
  let customer :=
    (customer.1, {| customerId := id;
                    numberOfItems := items;
                    arrivalTime := now;
                    serviceStartTime := serviceStartTime customer.2;
                    totalWaitingTime := totalWaitingTime customer.2 |}) in
  generated ← int_add (customersGenerated s) 1;
  let w3 := emit "customerGenerated" (SLong generated) w2 in
  Ok ({| generateCustomerTimer := generateCustomerTimer s;
         customerCounter := counter;
         arrivalInterval := arrivalInterval s;
         customersGenerated := generated |},
      send customer "out" (-1) w3).

Definition Shop_handleMessage (now : simtime_t) (msg : Message) (s : Shop) (w : World)
  : Result (Shop * World) :=
  match msg with
  | SelfMessage =>
      let s0 :=
        {| generateCustomerTimer := None;
           customerCounter := customerCounter s;
           arrivalInterval := arrivalInterval s;
           customersGenerated := customersGenerated s |} in
      '(s1, w1) ← generateCustomer now s0 w;
      let '(nextArrival, w2) := draw (exponential (arrivalInterval s1)) w1 in
      let w3 := emit "interArrivalTime" (SDouble nextArrival) w2 in
      timer ← scheduleAt now (simtime_add now (simtime_of_double nextArrival))
                         (generateCustomerTimer s1);
      Ok ({| generateCustomerTimer := timer;
             customerCounter := customerCounter s1;
             arrivalInterval := arrivalInterval s1;
             customersGenerated := customersGenerated s1 |}, w3)
  | _ => Ok (s, w)
  end.

(** The Shop on its own: its timer is the only message it ever gets, and
    the kernel hands it over when it is due.  [Shop_run n] handles [n]
    such events; with no timer pending there is nothing left to
    handle. *)
Fixpoint Shop_run (n : nat) (s : Shop) (w : World) : Result (Shop * World) :=
  match n with
  | O => Ok (s, w)
  | S n' =>
      match generateCustomerTimer s with
      | Some due =>
          '(s', w') ← Shop_handleMessage due SelfMessage s w;
          Shop_run n' s' w'
      | None => Ok (s, w)
      end
  end.

(** The customer ids of the messages sent so far, oldest first. *)
Definition sent_ids (w : World) : list Z := (λ m, customerId m.2.2) <$> sent w.

End Model.

Arguments CustomerMsg : clear implicits.
Arguments World : clear implicits.

(** ** Runs and what they keep *)

Section Runs.
Context {K : Kernel}.

(** The addresses of the customers a Cashier holds, in the order it serves
    them: the one in service, then the queue from its front. *)
Definition Cashier_held (s : Cashier) : list ptr :=
  match currentCustomer s with
  | Some current => [current.1]
  | None => []
  end ++ (customerQueue s).*1.

(** The items of the customers that wait in the queue. *)
Definition queued_items (s : Cashier) : Z :=
  foldr Z.add 0 ((λ customer : Customer, numberOfItems customer.2) <$> customerQueue s).

(** The customers among the messages of a list of events. *)
Definition arrivals (events : list (simtime_t * Message)) : list Customer :=
  omap (λ event, match event.2 with
                 | CustomerArrival customer => Some customer
                 | _ => None
                 end) events.

(** A Cashier handling a list of events, each a time and a message, in
    order. *)
Fixpoint Cashier_run (events : list (simtime_t * Message)) (s : Cashier) (w : World K)
  : Result (Cashier * World K) :=
  match events with
  | [] => Ok (s, w)
  | (now, msg) :: rest =>
      '(s', w') ← Cashier_handleMessage now msg s w;
      Cashier_run rest s' w'
  end.

(** The values emitted for the signal [queueLength], oldest first. *)
Definition queueLength_samples (l : list (string * SignalValue)) : list SignalValue :=
  (filter (λ sample, sample.1 = "queueLength") l).*2.

Definition Shop_finish (s : Shop) : Shop * Scalars :=
  ({| generateCustomerTimer := None;
      customerCounter := customerCounter s;
      arrivalInterval := arrivalInterval s;
      customersGenerated := customersGenerated s |},
   [("customersGenerated", double_of_int (customersGenerated s))]).

(** The counts of [N] cashiers after [c] customers dealt out in turn from
    cashier 0: [c / N] each, and one more for the first [c mod N]. *)
Definition counts_after (N c : Z) (l : list Z) : Prop :=
  length l = Z.to_nat N ∧
  ∀ (i : nat) x, l !! i = Some x →
    x = c `div` N + (if decide (Z.of_nat i < c `mod` N) then 1 else 0).

(** No two elements of [l] differ by more than one. *)
Definition within_one (l : list Z) : Prop :=
  ∀ x y, x ∈ l → y ∈ l → x ≤ y + 1.

(** What every reachable Balancer keeps: one tracked length and one
    assignment count per cashier, and a counter that is an [int] and not
    negative. *)
Definition Balancer_wf (b : Balancer) : Prop :=
  length (cashierQueueLengths b) = Z.to_nat (numCashiers b) ∧
  length (cashierAssignments b) = Z.to_nat (numCashiers b) ∧
  0 ≤ roundRobinCounter b ≤ INT_MAX.

(** What holds of a shortest-queue Balancer for [N] cashiers that started
    from zero counts, after [c] routing decisions. *)
Definition sq_inv (N c : Z) (b : Balancer) : Prop :=
  strategy b = SHORTEST_QUEUE ∧
  customersForwarded b = c ∧
  cashierAssignments b = cashierQueueLengths b ∧
  counts_after N c (cashierQueueLengths b).

Definition named (strategy : BalancingStrategy) : Prop :=
  match strategy with
  | Unnamed _ => False
  | _ => True
  end.

End Runs.

(** ** A kernel to run the model

    Exact rational arithmetic for [double] and [simtime_t], and a
    deterministic generator: its state is a counter, and the draws step
    through a fixed pattern inside the requested range. *)

Definition exact_uniform (a b : Qc) (g : Z) : Qc * Z :=
  ((a + (b - a) * Q2Qc ((g `mod` 4) # 4))%Qc, g + 1).

Definition exact_intuniform (a b : Z) (g : Z) : Z * Z :=
  (a + g `mod` (b - a + 1), g + 1).

Definition exact_exponential (mean : Qc) (g : Z) : Qc * Z :=
  ((mean * Q2Qc ((1 + g `mod` 3) # 2))%Qc, g + 1).

Definition exact_kernel : Kernel :=
  {| double := Qc;
     simtime_t := Qc;
     RNG := Z;
     dlit := Q2Qc;
     double_of_int := Qc_of_Z;
     dadd := Qcplus;
     dmul := Qcmult;
     ddiv := Qcdiv;
     dgt := λ x y, bool_decide (y < x)%Qc;
     simtime_of_int := Qc_of_Z;
     simtime_of_double := λ d, d;
     SIMTIME_DBL := λ t, t;
     simtime_add := Qcplus;
     simtime_sub := Qcminus;
     simtime_lt := λ x y, bool_decide (x < y)%Qc;
     uniform := exact_uniform;
     intuniform := exact_intuniform;
     exponential := exact_exponential |}.

Definition exact_world (seed : Z) : World exact_kernel :=
  @Build_World exact_kernel seed [] [] 1%positive.

Definition exact_customer (p : ptr) (id items : Z) (arrival : Qc)
  : @Customer exact_kernel :=
  (p, @Build_CustomerMsg exact_kernel id items arrival (Q2Qc 0) (Q2Qc 0)).

(** A Cashier alone from time 0: a customer with 2 items arrives at time
    1 and is served at once; the service ends when the timer is due. *)
Definition exact_cashier_run : Result (@Cashier exact_kernel * World exact_kernel) :=
  let '(s0, w0) := Cashier_initialize (K:=exact_kernel) 0 (Q2Qc 0) (exact_world 0) in
  '(s1, w1) ← Cashier_handleMessage (K:=exact_kernel) (Q2Qc 1)
       (CustomerArrival (exact_customer 1%positive 1 2 (Q2Qc 1))) s0 w0;
  match processCustomerTimer s1 with
  | Some due => Cashier_handleMessage (K:=exact_kernel) due SelfMessage s1 w1
  | None => Ok (s1, w1)
  end.

(** The state and the world that run ends in. *)
Definition exact_cashier_end : @Cashier exact_kernel * World exact_kernel :=
  Eval vm_compute in
    match exact_cashier_run with
    | Ok end_of_run => end_of_run
    | Err _ => Cashier_initialize (K:=exact_kernel) 0 (Q2Qc 0) (exact_world 0)
    end.

(** A Shop whose mean arrival interval is configured as -1, initialized at
    time 0, and its first arrival event, at time 1/10. *)
Definition exact_shop_start : Result (@Shop exact_kernel) :=
  Shop_initialize (K:=exact_kernel) (Q2Qc (-1)) (Q2Qc 0).

Definition exact_shop_started : @Shop exact_kernel :=
  Eval vm_compute in
    match exact_shop_start with
    | Ok s0 => s0
    | Err _ => @Build_Shop exact_kernel None 0 (Q2Qc 0) 0
    end.

Definition exact_shop_first_arrival
  : Result (@Shop exact_kernel * World exact_kernel) :=
  Shop_handleMessage (K:=exact_kernel) (Q2Qc 0.1) SelfMessage
    exact_shop_started (exact_world 0).

(** A Shop whose mean arrival interval is 2, initialized at time 0. *)
Definition exact_shop_open : @Shop exact_kernel :=
  Eval vm_compute in
    match Shop_initialize (K:=exact_kernel) (Q2Qc 2) (Q2Qc 0) with
    | Ok s0 => s0
    | Err _ => @Build_Shop exact_kernel None 0 (Q2Qc 0) 0
    end.

(** The Balancer after seven round-robin decisions for three cashiers. *)
Definition exact_balancer : Balancer :=
  {| strategy := ROUND_ROBIN;
     roundRobinCounter := 7;
     cashierQueueLengths := [3; 2; 2];
     numCashiers := 3;
     customersForwarded := 7;
     cashierAssignments := [3; 2; 2] |}.

(** The value of a scalar as a fraction in lowest terms. *)
Definition scalar_value (name : string) (l : @Scalars exact_kernel) : option Q :=
  this <$> scalar name l.

(** A Cashier with two customers: the first arrives at time 1 and is
    served until 19/8, the second arrives at 3/2 and waits, and the
    completion of the first starts the service of the second. *)
Definition exact_events : list (@simtime_t exact_kernel * @Message exact_kernel) :=
  [(Q2Qc 1, CustomerArrival (exact_customer 1%positive 1 2 (Q2Qc 1)));
   (Q2Qc 1.5, CustomerArrival (exact_customer 2%positive 2 3 (Q2Qc 1.5)));
   (Q2Qc (19 # 8), SelfMessage)].

Definition exact_events_run : Result (@Cashier exact_kernel * World exact_kernel) :=
  Cashier_run (K:=exact_kernel) exact_events
    (Cashier_initialize (K:=exact_kernel) 0 (Q2Qc 0) (exact_world 0)).1
    (Cashier_initialize (K:=exact_kernel) 0 (Q2Qc 0) (exact_world 0)).2.

Definition exact_events_end : @Cashier exact_kernel * World exact_kernel :=
  Eval vm_compute in
    match exact_events_run with
    | Ok end_of_run => end_of_run
    | Err _ => Cashier_initialize (K:=exact_kernel) 0 (Q2Qc 0) (exact_world 0)
    end.

(** A Balancer for three cashiers, shortest queue first, and the two
    customers above routed by it. *)
Definition exact_routing : Result (Balancer * World exact_kernel) :=
  route_all (K:=exact_kernel)
    [exact_customer 1%positive 1 2 (Q2Qc 1);
     exact_customer 2%positive 2 3 (Q2Qc 1.5)]
    (Balancer_initialize 1 3) (exact_world 0).

Definition exact_routed : Balancer * World exact_kernel :=
  Eval vm_compute in
    match exact_routing with
    | Ok state => state
    | Err _ => (Balancer_initialize 1 3, exact_world 0)
    end.

(** * Properties *)

(** ** Results and integers *)

Lemma bind_Ok {A B} (m : Result A) (f : A → Result B) (b : B) :
  m ≫= f = Ok b ↔ ∃ a, m = Ok a ∧ f a = Ok b.
Proof.
  destruct m as [a|e]; simpl; split.
  - intros H. by exists a.
  - by intros (a' & [= <-] & H).
  - done.
  - by intros (a' & [=] & _).
Qed.

Lemma bind_Ok_l {A B} (a : A) (f : A → Result B) : Ok a ≫= f = f a.
Proof. reflexivity. Qed.

Lemma int_checked_Ok z : in_int z → int_checked z = Ok z.
Proof. intros H. unfold int_checked. by rewrite decide_True. Qed.

Lemma int_checked_inv z r : int_checked z = Ok r → r = z ∧ in_int z.
Proof. unfold int_checked. case_decide; naive_solver. Qed.

Lemma int_add_Ok a b : in_int (a + b) → int_add a b = Ok (a + b).
Proof. apply int_checked_Ok. Qed.

Lemma int_add_inv a b r : int_add a b = Ok r → r = a + b ∧ in_int (a + b).
Proof. apply int_checked_inv. Qed.

Lemma int_rem_nonneg a b :
  0 ≤ a → a ≤ INT_MAX → 0 < b → int_rem a b = Ok (a `mod` b).
Proof.
  intros Ha Ha' Hb. unfold int_rem. rewrite decide_False by lia.
  rewrite int_checked_Ok; simpl.
  - by rewrite Z.rem_mod_nonneg by lia.
  - rewrite Z.quot_div_nonneg by lia.
    assert (0 ≤ a `div` b) by (apply Z.div_pos; lia).
    assert (a `div` b ≤ a) by (apply Z.div_le_upper_bound; nia).
    unfold in_int, INT_MIN, INT_MAX in *. lia.
Qed.

Lemma vec_get_Ok (v : list Z) (i : nat) x :
  v !! i = Some x → vec_get v (Z.of_nat i) = Ok x.
Proof.
  intros H. unfold vec_get. rewrite decide_True by lia.
  by rewrite Nat2Z.id, H.
Qed.

Lemma vec_get_inv (v : list Z) i x :
  vec_get v i = Ok x → 0 ≤ i ∧ v !! Z.to_nat i = Some x.
Proof.
  unfold vec_get. case_decide; [|done].
  destruct (v !! Z.to_nat i) eqn:E; naive_solver.
Qed.

Lemma vec_incr_inv (v : list Z) i v' :
  vec_incr v i = Ok v' →
  ∃ x, 0 ≤ i ∧ v !! Z.to_nat i = Some x ∧ in_int (x + 1) ∧
       v' = <[Z.to_nat i := x + 1]> v.
Proof.
  unfold vec_incr. intros (x & Hx & H)%bind_Ok.
  apply bind_Ok in H as (x' & Hx' & [= <-]).
  apply vec_get_inv in Hx as [? ?]. apply int_add_inv in Hx' as [-> ?].
  by exists x.
Qed.

Lemma vec_incr_Ok (v : list Z) (i : nat) x :
  v !! i = Some x → in_int (x + 1) →
  vec_incr v (Z.of_nat i) = Ok (<[i := x + 1]> v).
Proof.
  intros H Hx. unfold vec_incr.
  rewrite (vec_get_Ok _ _ _ H); simpl.
  rewrite int_add_Ok by done; simpl. by rewrite Nat2Z.id.
Qed.

(** ** std::min_element and std::max_element *)

Lemma min_element_from_spec (pre l : list Z) (s : nat) (vs : Z) :
  first_minimum pre s vs →
  ∃ x, first_minimum (pre ++ l) (min_element_from s vs (length pre) l) x.
Proof.
  revert pre s vs. induction l as [|x l IH]; intros pre s vs Hmin; simpl.
  - exists vs. by rewrite app_nil_r.
  - destruct Hmin as (Hs & Hle & Hlt).
    replace (pre ++ x :: l) with ((pre ++ [x]) ++ l) by by rewrite <- app_assoc.
    replace (S (length pre)) with (length (pre ++ [x]))
      by (rewrite length_app; simpl; lia).
    case_decide as Hx; apply IH; repeat split.
    + by rewrite lookup_app_r, Nat.sub_diag by lia.
    + intros j y Hj. apply lookup_app_Some in Hj as [Hj|[_ Hj]].
      * specialize (Hle _ _ Hj). lia.
      * apply list_lookup_singleton_Some in Hj as [_ ->]. lia.
    + intros j y Hji Hj.
      rewrite lookup_app_l in Hj by lia. specialize (Hle _ _ Hj). lia.
    + rewrite lookup_app_l; [done|]. by eapply lookup_lt_Some.
    + intros j y Hj. apply lookup_app_Some in Hj as [Hj|[_ Hj]].
      * by eapply Hle.
      * apply list_lookup_singleton_Some in Hj as [_ ->]. lia.
    + intros j y Hji Hj. apply lookup_lt_Some in Hs.
      rewrite lookup_app_l in Hj by lia. by eapply Hlt.
Qed.

Lemma min_element_spec (l : list Z) :
  l ≠ [] → ∃ x, first_minimum l (min_element l) x.
Proof.
  destruct l as [|x l]; [done|]; intros _. simpl.
  apply (min_element_from_spec [x] l 0 x). repeat split.
  - intros [|j] y; simpl; [naive_solver lia|]. by rewrite lookup_nil.
  - intros j y Hj. lia.
Qed.

Lemma first_minimum_unique (l : list Z) i x j y :
  first_minimum l i x → first_minimum l j y → i = j ∧ x = y.
Proof.
  intros (Hi & Hle & Hlt) (Hj & Hle' & Hlt').
  assert (x = y) as ->.
  { specialize (Hle _ _ Hj). specialize (Hle' _ _ Hi). lia. }
  split; [|done].
  destruct (Nat.lt_trichotomy i j) as [H|[H|H]]; [|done|].
  - specialize (Hlt' _ _ H Hi). lia.
  - specialize (Hlt _ _ H Hj). lia.
Qed.

Lemma first_minimum_minimum (l : list Z) i x :
  first_minimum l i x → minimum l x.
Proof.
  intros (Hi & Hle & _). split.
  - by eapply list_elem_of_lookup_2.
  - intros y [j Hj]%list_elem_of_lookup. by eapply Hle.
Qed.

Lemma max_element_from_spec (pre l : list Z) (s : nat) (vl : Z) :
  pre !! s = Some vl → (∀ y, y ∈ pre → y ≤ vl) →
  ∃ x, (pre ++ l) !! max_element_from s vl (length pre) l = Some x ∧
       ∀ y, y ∈ pre ++ l → y ≤ x.
Proof.
  revert pre s vl. induction l as [|x l IH]; intros pre s vl Hs Hle; simpl.
  - exists vl. by rewrite app_nil_r.
  - replace (pre ++ x :: l) with ((pre ++ [x]) ++ l) by by rewrite <- app_assoc.
    replace (S (length pre)) with (length (pre ++ [x]))
      by (rewrite length_app; simpl; lia).
    case_decide as Hx; apply IH.
    + by rewrite lookup_app_r, Nat.sub_diag by lia.
    + intros y [Hy|Hy]%elem_of_app.
      * specialize (Hle _ Hy). lia.
      * apply list_elem_of_singleton in Hy as ->. lia.
    + rewrite lookup_app_l; [done|]. by eapply lookup_lt_Some.
    + intros y [Hy|Hy]%elem_of_app.
      * by apply Hle.
      * apply list_elem_of_singleton in Hy as ->. lia.
Qed.

Lemma max_element_spec (l : list Z) :
  l ≠ [] → ∃ x, l !! max_element l = Some x ∧ maximum l x.
Proof.
  destruct l as [|x0 l]; [done|]; intros _. simpl.
  destruct (max_element_from_spec [x0] l 0 x0) as (x & Hx & Hmax).
  - done.
  - intros y ->%list_elem_of_singleton. lia.
  - exists x. split; [done|]. split; [|done].
    by eapply list_elem_of_lookup_2.
Qed.

(** ** Balancer *)

Section Balancer_facts.
Context {K : Kernel}.
Implicit Types (b : Balancer) (w : World K) (customer : Customer).

Lemma selectCashier_frame b w i b1 w1 :
  selectCashier b w = Ok (i, b1, w1) →
  strategy b1 = strategy b ∧
  cashierQueueLengths b1 = cashierQueueLengths b ∧
  cashierAssignments b1 = cashierAssignments b ∧
  numCashiers b1 = numCashiers b ∧
  customersForwarded b1 = customersForwarded b ∧
  sent w1 = sent w.
Proof.
  unfold selectCashier. destruct (strategy b) eqn:Hs.
  - intros (i' & _ & H)%bind_Ok. apply bind_Ok in H as (n & _ & H).
    by simplify_eq.
  - intros; by simplify_eq.
  - intros (hi & _ & H)%bind_Ok. unfold draw in H.
    destruct (intuniform 0 hi (rng w)) as [i' g]. by simplify_eq.
  - intros; by simplify_eq.
Qed.

Lemma Balancer_handleMessage_inv customer b w b' w' :
  Balancer_handleMessage (CustomerArrival customer) b w = Ok (b', w') →
  ∃ i b1 w1 x y,
    selectCashier b w = Ok (i, b1, w1) ∧
    0 ≤ i ∧
    cashierQueueLengths b !! Z.to_nat i = Some x ∧ in_int (x + 1) ∧
    cashierAssignments b !! Z.to_nat i = Some y ∧ in_int (y + 1) ∧
    in_int (customersForwarded b + 1) ∧
    strategy b' = strategy b ∧
    numCashiers b' = numCashiers b ∧
    roundRobinCounter b' = roundRobinCounter b1 ∧
    cashierQueueLengths b' = <[Z.to_nat i := x + 1]> (cashierQueueLengths b) ∧
    cashierAssignments b' = <[Z.to_nat i := y + 1]> (cashierAssignments b) ∧
    customersForwarded b' = customersForwarded b + 1 ∧
    w' = send customer "out" i (emit "loadBalancing" (SLong i) w1).
Proof.
  unfold Balancer_handleMessage.
  intros ([[i b1] w1] & Hsel & H)%bind_Ok.
  apply bind_Ok in H as (name & _ & H).
  apply bind_Ok in H as (lengths & Hl & H).
  apply bind_Ok in H as (assignments & Ha & H).
  apply bind_Ok in H as (forwarded & Hf & H).
  destruct (selectCashier_frame _ _ _ _ _ Hsel) as (Hs & Hql & Has & Hn & Hcf & _).
  rewrite Hql in Hl. rewrite Has in Ha. rewrite Hcf in Hf.
  apply vec_incr_inv in Hl as (x & Hi & Hx & Hx' & ->).
  apply vec_incr_inv in Ha as (y & _ & Hy & Hy' & ->).
  apply int_add_inv in Hf as [-> Hf].
  exists i, b1, w1, x, y. by simplify_eq.
Qed.

(** *** Round robin *)

Lemma rr_inv_init N : 0 ≤ N → rr_inv N 0 (Balancer_initialize 0 N).
Proof.
  intros HN. unfold rr_inv, Balancer_initialize; simpl.
  rewrite length_replicate. repeat split; try done.
  all: apply Forall_replicate; lia.
Qed.

Lemma rr_step N c b customer w :
  1 ≤ N → rr_inv N c b → 0 ≤ c → c < INT_MAX →
  ∃ b', Balancer_handleMessage (CustomerArrival customer) b w
          = Ok (b', send customer "out" (c `mod` N)
                      (emit "loadBalancing" (SLong (c `mod` N)) w)) ∧
        rr_inv N (c + 1) b'.
Proof.
  intros HN (Hs & Hn & Hc & Hf & Hlq & Hla & Hq & Ha) Hc0 Hc1.
  assert (0 ≤ c `mod` N < N) as Hmod by (apply Z.mod_pos_bound; lia).
  set (i := Z.to_nat (c `mod` N)).
  assert (c `mod` N = Z.of_nat i) as Hi by lia.
  destruct (lookup_lt_is_Some_2 (cashierQueueLengths b) i) as [x Hx]; [lia|].
  destruct (lookup_lt_is_Some_2 (cashierAssignments b) i) as [y Hy]; [lia|].
  pose proof (Forall_lookup_1 _ _ _ _ Hq Hx) as Hxc.
  pose proof (Forall_lookup_1 _ _ _ _ Ha Hy) as Hyc. simpl in Hxc, Hyc.
  assert (∀ z, 0 ≤ z ≤ c → in_int (z + 1)) as Hin.
  { unfold in_int, INT_MIN, INT_MAX in *. lia. }
  eexists. split.
  - unfold Balancer_handleMessage, selectCashier. rewrite Hs, Hn, Hc.
    rewrite int_rem_nonneg by lia; simpl.
    rewrite int_add_Ok by (apply Hin; lia); simpl.
    rewrite Hs; simpl. rewrite Hi.
    rewrite (vec_incr_Ok _ _ _ Hx) by by apply Hin.
    simpl. rewrite (vec_incr_Ok _ _ _ Hy) by by apply Hin.
    simpl. rewrite Hf. rewrite int_add_Ok by (apply Hin; lia). simpl.
    reflexivity.
  - unfold rr_inv; simpl. rewrite !length_insert.
    repeat split; try done.
    + apply Forall_insert; [|lia]. eapply Forall_impl; [done|]. simpl; lia.
    + apply Forall_insert; [|lia]. eapply Forall_impl; [done|]. simpl; lia.
Qed.

Lemma rr_overflow N b customer w :
  1 ≤ N → rr_inv N INT_MAX b →
  Balancer_handleMessage (CustomerArrival customer) b w = Err SignedOverflow.
Proof.
  intros HN (Hs & Hn & Hc & _).
  unfold Balancer_handleMessage, selectCashier. rewrite Hs, Hn, Hc.
  rewrite int_rem_nonneg by (unfold INT_MAX; lia). simpl.
  reflexivity.
Qed.

Lemma rr_indices_S N c n :
  rr_indices N c (S n) = c `mod` N :: rr_indices N (c + 1) n.
Proof.
  unfold rr_indices. simpl. rewrite Z.add_0_r. f_equal.
  rewrite <- fmap_S_seq, <- list_fmap_compose.
  apply list_fmap_ext. intros _ k _. simpl. f_equal. lia.
Qed.

Lemma decisions_send w customer i signal v :
  decisions (send customer "out" i (emit signal v w)) = decisions w ++ [i].
Proof. unfold decisions. simpl. by rewrite fmap_app. Qed.

Lemma route_all_cons customer rest b w :
  route_all (customer :: rest) b w
  = Balancer_handleMessage (CustomerArrival customer) b w ≫=
      λ '(b', w'), route_all rest b' w'.
Proof. reflexivity. Qed.

Lemma rr_run N customers :
  1 ≤ N → ∀ c b w,
  rr_inv N c b → 0 ≤ c → c + Z.of_nat (length customers) ≤ INT_MAX →
  ∃ b' w', route_all customers b w = Ok (b', w') ∧
           rr_inv N (c + Z.of_nat (length customers)) b' ∧
           decisions w' = decisions w ++ rr_indices N c (length customers).
Proof.
  intros HN. induction customers as [|customer rest IH]; intros c b w Hinv Hc Hlen.
  - exists b, w. simpl. rewrite Z.add_0_r, app_nil_r. done.
  - simpl length in *.
    destruct (rr_step N c b customer w) as (b1 & Hstep & Hinv1); [lia|done|lia|lia|].
    destruct (IH (c + 1) b1
      (send customer "out" (c `mod` N) (emit "loadBalancing" (SLong (c `mod` N)) w)))
      as (b' & w' & Hrun & Hinv' & Hdec); [done|lia|lia|].
    exists b', w'. rewrite route_all_cons, Hstep. simpl. split; [done|]. split.
    + by replace (c + Z.of_nat (S (length rest)))
        with (c + 1 + Z.of_nat (length rest)) by lia.
    + rewrite Hdec, decisions_send, rr_indices_S, <- app_assoc. done.
Qed.

Lemma rr_run_bounded N customers :
  1 ≤ N → ∀ c b w b' w',
  rr_inv N c b → 0 ≤ c → c ≤ INT_MAX →
  route_all customers b w = Ok (b', w') →
  c + Z.of_nat (length customers) ≤ INT_MAX.
Proof.
  intros HN. induction customers as [|customer rest IH];
    intros c b w b' w' Hinv Hc Hc' Hrun.
  - simpl. lia.
  - destruct (decide (c = INT_MAX)) as [->|Hne].
    + rewrite route_all_cons in Hrun. by rewrite (rr_overflow N) in Hrun.
    + destruct (rr_step N c b customer w) as (b1 & Hstep & Hinv1); [lia|done|lia|lia|].
      rewrite route_all_cons, Hstep in Hrun. simpl in Hrun.
      eapply (IH (c + 1)) in Hrun; [|done|lia|lia]. simpl length. lia.
Qed.

Lemma rr_indices_lookup N c n k :
  (k < n)%nat → rr_indices N c n !! k = Some ((c + Z.of_nat k) `mod` N).
Proof.
  intros Hk. unfold rr_indices.
  by rewrite list_lookup_fmap, lookup_seq_lt.
Qed.

(** C1.  Round robin: for [N >= 1] cashiers the run is defined as long as
    the [int] counter does not overflow; the counter starts at 0 and
    after the run equals the number of routing decisions; the [k]-th
    routing decision of the run, [k] counted from 0, is cashier
    [k mod N].  With 3 cashiers, 7 arrivals go to 0,1,2,0,1,2,0. *)
Theorem round_robin_kth_decision (N : Z) (customers : list Customer) w :
  1 ≤ N →
  roundRobinCounter (Balancer_initialize 0 N) = 0 ∧
  (is_Ok (route_all customers (Balancer_initialize 0 N) w)
   ↔ Z.of_nat (length customers) ≤ INT_MAX) ∧
  (∀ b' w',
     route_all customers (Balancer_initialize 0 N) w = Ok (b', w') →
     roundRobinCounter b' = Z.of_nat (length customers) ∧
     length (decisions w') = (length (decisions w) + length customers)%nat ∧
     ∀ k, (k < length customers)%nat →
          decisions w' !! (length (decisions w) + k)%nat
          = Some (Z.of_nat k `mod` N)) ∧
  (N = 3 → length customers = 7%nat →
   ∃ b' w',
     route_all customers (Balancer_initialize 0 N) w = Ok (b', w') ∧
     decisions w' = decisions w ++ [0; 1; 2; 0; 1; 2; 0]).
Proof.
  intros HN.
  pose proof (rr_inv_init N ltac:(lia)) as Hinit.
  assert (Z.of_nat (length customers) ≤ INT_MAX →
          ∃ b' w', route_all customers (Balancer_initialize 0 N) w = Ok (b', w') ∧
                   rr_inv N (Z.of_nat (length customers)) b' ∧
                   decisions w' = decisions w ++ rr_indices N 0 (length customers))
    as Hrun.
  { intros Hlen.
    destruct (rr_run N customers HN 0 _ w Hinit) as (b' & w' & H1 & H2 & H3);
      [lia|lia|]. by exists b', w'. }
  split; [done|]. split; [|split].
  - split.
    + intros [[b' w'] Hok].
      by apply (rr_run_bounded N customers HN 0 _ w b' w' Hinit).
    + intros Hlen. destruct (Hrun Hlen) as (b' & w' & H1 & _).
      by exists (b', w').
  - intros b' w' Hok.
    pose proof (rr_run_bounded N customers HN 0 _ w b' w' Hinit
                  ltac:(lia) ltac:(unfold INT_MAX; lia) Hok) as Hlen.
    destruct (Hrun ltac:(lia)) as (b'' & w'' & H1 & H2 & H3).
    rewrite Hok in H1. simplify_eq.
    destruct H2 as (_ & _ & Hc & _). split; [done|].
    rewrite H3. split.
    + unfold rr_indices. by rewrite length_app, length_fmap, length_seq.
    + intros k Hk. rewrite lookup_app_r by lia.
      replace (length (decisions w) + k - length (decisions w))%nat with k by lia.
      by rewrite rr_indices_lookup.
  - intros -> H7.
    destruct (Hrun ltac:(rewrite H7; unfold INT_MAX; lia)) as (b' & w' & H1 & _ & H3).
    exists b', w'. split; [done|]. by rewrite H3, H7.
Qed.

(** *** Shortest queue *)

Lemma sq_step b w customer i x y :
  strategy b = SHORTEST_QUEUE →
  first_minimum (cashierQueueLengths b) i x →
  cashierAssignments b !! i = Some y →
  in_int (x + 1) → in_int (y + 1) → in_int (customersForwarded b + 1) →
  Balancer_handleMessage (CustomerArrival customer) b w
  = Ok ({| strategy := strategy b;
           roundRobinCounter := roundRobinCounter b;
           cashierQueueLengths := <[i := x + 1]> (cashierQueueLengths b);
           numCashiers := numCashiers b;
           customersForwarded := customersForwarded b + 1;
           cashierAssignments := <[i := y + 1]> (cashierAssignments b) |},
        send customer "out" (Z.of_nat i)
          (emit "loadBalancing" (SLong (Z.of_nat i)) w)).
Proof.
  intros Hs Hmin Hy Hx1 Hy1 Hf.
  assert (min_element (cashierQueueLengths b) = i) as Hi.
  { destruct (min_element_spec (cashierQueueLengths b)) as [x' Hx'].
    - destruct Hmin as [Hl _]. by destruct (cashierQueueLengths b).
    - by destruct (first_minimum_unique _ _ _ _ _ Hx' Hmin). }
  unfold Balancer_handleMessage, selectCashier. rewrite Hs, Hi. simpl.
  rewrite Hs. simpl.
  destruct Hmin as [Hx _].
  rewrite (vec_incr_Ok _ _ _ Hx) by done. simpl.
  rewrite (vec_incr_Ok _ _ _ Hy) by done. simpl.
  rewrite int_add_Ok by done. reflexivity.
Qed.

Lemma first_minimum_replicate n v :
  (1 ≤ n)%nat → first_minimum (replicate n v) 0 v.
Proof.
  intros Hn. repeat split.
  - by rewrite lookup_replicate_2 by lia.
  - intros j y [-> _]%lookup_replicate. lia.
  - lia.
Qed.

Lemma first_minimum_after_first n v :
  (2 ≤ n)%nat → first_minimum (<[0%nat := v + 1]> (replicate n v)) 1 v.
Proof.
  intros Hn. destruct n as [|[|n]]; [lia|lia|]. simpl. repeat split.
  - intros [|j] y; simpl.
    + intros [= <-]. lia.
    + intros Hj. change (replicate (S n) v !! j = Some y) in Hj.
      apply lookup_replicate in Hj as [-> _]. lia.
  - intros [|j] y Hj; [|lia]. simpl. intros [= <-]. lia.
Qed.

(** C2.  Shortest queue: every routing decision sends the customer to the
    first position that holds the smallest tracked count; from counts
    that are all equal, the first two arrivals go to cashier 0 and then
    to cashier 1. *)
Theorem shortest_queue_first_minimum b w customer :
  strategy b = SHORTEST_QUEUE →
  (cashierQueueLengths b ≠ [] →
   ∃ i x, selectCashier b w = Ok (Z.of_nat i, b, w) ∧
          first_minimum (cashierQueueLengths b) i x) ∧
  (∀ b' w',
     Balancer_handleMessage (CustomerArrival customer) b w = Ok (b', w') →
     ∃ i x, first_minimum (cashierQueueLengths b) i x ∧
            sent w' = sent w ++ [("out", Z.of_nat i, customer)]) ∧
  (∀ n v customer2,
     (2 ≤ n)%nat →
     cashierQueueLengths b = replicate n v →
     cashierAssignments b = replicate n v →
     in_int v → v < INT_MAX →
     in_int (customersForwarded b) → customersForwarded b + 2 ≤ INT_MAX →
     ∃ b' w',
       route_all [customer; customer2] b w = Ok (b', w') ∧
       decisions w' = decisions w ++ [0; 1]).
Proof.
  intros Hs. split; [|split].
  - intros Hne. destruct (min_element_spec _ Hne) as [x Hmin].
    exists (min_element (cashierQueueLengths b)), x. split; [|done].
    unfold selectCashier. by rewrite Hs.
  - intros b' w' Hok.
    apply Balancer_handleMessage_inv in Hok
      as (i & b1 & w1 & x & y & Hsel & Hi & Hx & _ & _ & _ & _ & _ & _ & _ & _ & _ & _ & ->).
    destruct (min_element_spec (cashierQueueLengths b)) as [x' Hmin].
    { by destruct (cashierQueueLengths b). }
    unfold selectCashier in Hsel. rewrite Hs in Hsel.
    injection Hsel as <- <- <-.
    by exists (min_element (cashierQueueLengths b)), x'.
  - intros n v customer2 Hn Hq Ha Hv Hv' Hf Hf'.
    assert (in_int (v + 1)) by (unfold in_int, INT_MIN, INT_MAX in *; lia).
    rewrite route_all_cons.
    rewrite (sq_step b w customer 0 v v); try done.
    + rewrite bind_Ok_l. cbv beta iota. rewrite route_all_cons.
      erewrite (sq_step _ _ customer2 1 v v); simpl; try done.
      * do 2 eexists. split; [done|]. by rewrite !decisions_send, <- app_assoc.
      * rewrite Hq. by apply first_minimum_after_first.
      * rewrite Ha.
        rewrite list_lookup_insert_ne by done.
        by rewrite lookup_replicate_2 by lia.
      * unfold in_int, INT_MIN, INT_MAX in *; lia.
    + rewrite Hq. apply first_minimum_replicate. lia.
    + rewrite Ha. by rewrite lookup_replicate_2 by lia.
    + unfold in_int, INT_MIN, INT_MAX in *; lia.
Qed.

(** *** The tracked queue lengths *)

Lemma foldr_add_insert (l : list Z) (i : nat) (x : Z) :
  l !! i = Some x →
  foldr Z.add 0 (<[i := x + 1]> l) = foldr Z.add 0 l + 1.
Proof.
  revert i. induction l as [|a l IH]; intros [|i] H; simplify_eq/=.
  - lia.
  - rewrite (IH _ H). lia.
Qed.

Lemma lookup_insert_incr (l : list Z) (i j : nat) (x y : Z) :
  l !! i = Some x → l !! j = Some y →
  ∃ y', <[i := x + 1]> l !! j = Some y' ∧ y ≤ y' ≤ y + 1.
Proof.
  intros Hi Hj. destruct (decide (i = j)) as [->|Hne].
  - exists (x + 1). rewrite list_lookup_insert_eq by by eapply lookup_lt_Some.
    simplify_eq. split; [done|lia].
  - exists y. rewrite list_lookup_insert_ne by done. split; [done|lia].
Qed.

Lemma Balancer_reachable_inv b :
  Balancer_reachable b →
  cashierQueueLengths b = cashierAssignments b ∧
  foldr Z.add 0 (cashierAssignments b) = customersForwarded b.
Proof.
  induction 1 as [par N|b w msg b' w' _ [IH1 IH2] Hstep].
  - simpl. split; [done|]. induction (Z.to_nat N); simpl; lia.
  - destruct msg as [|customer|]; simpl in Hstep; [by simplify_eq| |by simplify_eq].
    apply Balancer_handleMessage_inv in Hstep
      as (i & b1 & w1 & x & y & _ & _ & Hx & _ & Hy & _ & _ & _ & _ & _ & -> & -> & -> & _).
    rewrite IH1 in Hx. assert (x = y) as -> by congruence. split.
    + by rewrite IH1.
    + rewrite (foldr_add_insert _ _ _ Hy). lia.
Qed.

(** C10.  The tracked queue lengths and the assignment counts of a
    Balancer are the same vector in every reachable state: both start
    at zero everywhere, every routing decision adds one to both at the
    position it selects, every other position keeps its value, and no
    message makes an entry smaller; the entries sum to the number of
    customers forwarded.  So what the shortest-queue strategy selects
    is the first smallest assignment count. *)
Theorem tracked_lengths_are_assignment_counts :
  (∀ par_strategy N,
     cashierQueueLengths (Balancer_initialize par_strategy N)
       = replicate (Z.to_nat N) 0 ∧
     cashierAssignments (Balancer_initialize par_strategy N)
       = replicate (Z.to_nat N) 0) ∧
  (∀ b, Balancer_reachable b →
     cashierQueueLengths b = cashierAssignments b ∧
     foldr Z.add 0 (cashierAssignments b) = customersForwarded b ∧
     (∀ msg w b' w',
        Balancer_handleMessage msg b w = Ok (b', w') →
        (∀ customer, msg = CustomerArrival customer →
           ∃ i x, sent w' = sent w ++ [("out", i, customer)] ∧
                  0 ≤ i ∧
                  cashierAssignments b !! Z.to_nat i = Some x ∧
                  cashierQueueLengths b'
                    = <[Z.to_nat i := x + 1]> (cashierQueueLengths b) ∧
                  cashierAssignments b'
                    = <[Z.to_nat i := x + 1]> (cashierAssignments b)) ∧
        (∀ j y, cashierQueueLengths b !! j = Some y →
           ∃ y', cashierQueueLengths b' !! j = Some y' ∧ y ≤ y' ≤ y + 1)) ∧
     (strategy b = SHORTEST_QUEUE →
      ∀ w, ∃ i,
        selectCashier b w = Ok (Z.of_nat i, b, w) ∧
        (cashierAssignments b ≠ [] →
         ∃ x, first_minimum (cashierAssignments b) i x))).
Proof.
  split; [done|]. intros b Hb.
  destruct (Balancer_reachable_inv b Hb) as [Heq Hsum].
  split; [done|]. split; [done|]. split.
  - intros msg w b' w' Hstep. split.
    + intros customer ->.
      apply Balancer_handleMessage_inv in Hstep
        as (i & b1 & w1 & x & y & Hsel & Hi & Hx & _ & Hy & _ & _ & _ & _ & _ & -> & -> & _ & ->).
      apply selectCashier_frame in Hsel as (_ & _ & _ & _ & _ & Hsent).
      rewrite Heq in Hx. assert (x = y) as -> by congruence.
      exists i, y. simpl. by rewrite Hsent.
    + intros j y Hj.
      destruct msg as [|customer|]; simpl in Hstep;
        [simplify_eq; exists y; split; [done|lia]|
         |simplify_eq; exists y; split; [done|lia]].
      apply Balancer_handleMessage_inv in Hstep
        as (i & b1 & w1 & x & y0 & _ & _ & Hx & _ & _ & _ & _ & _ & _ & _ & -> & _).
      by eapply lookup_insert_incr.
  - intros Hs w. exists (min_element (cashierQueueLengths b)). split.
    + unfold selectCashier. by rewrite Hs.
    + rewrite <- Heq. apply min_element_spec.
Qed.

(** *** The scalars recorded at the end *)

Lemma assignment_scalars_Ok (l : list Z) (n : nat) (i0 : Z) :
  0 ≤ i0 → (Z.to_nat i0 + n ≤ length l)%nat →
  is_Ok (assignment_scalars l i0 n).
Proof.
  revert i0. induction n as [|n IH]; intros i0 Hi0 Hlen; simpl.
  - by eexists.
  - destruct (lookup_lt_is_Some_2 l (Z.to_nat i0)) as [x Hx]; [lia|].
    destruct (IH (i0 + 1)) as [rest Hrest]; [lia|lia|].
    replace i0 with (Z.of_nat (Z.to_nat i0)) at 1 by lia.
    rewrite (vec_get_Ok _ _ _ Hx). simpl. rewrite Hrest. simpl. by eexists.
Qed.

Lemma balancingEfficiency_Ok (l : list Z) :
  l ≠ [] →
  ∃ mn mx,
    minimum l mn ∧ maximum l mx ∧
    balancingEfficiency l
    = Ok (if dgt (double_of_int mx) (double_of_int 0)
          then dmul (ddiv (double_of_int mn) (double_of_int mx)) (double_of_int 100)
          else double_of_int 100).
Proof.
  intros Hl.
  destruct (max_element_spec l Hl) as (mx & Hmx & Hmax).
  destruct (min_element_spec l Hl) as (mn & Hmin).
  exists mn, mx. split; [by eapply first_minimum_minimum|]. split; [done|].
  unfold balancingEfficiency, deref. rewrite Hmx. simpl.
  destruct Hmin as [-> _]. reflexivity.
Qed.

(** C9.  The [balancingEfficiency] scalar: with [mn] the smallest and [mx]
    the largest assignment count, it is [(mn / mx) * 100] when [mx] is
    positive; it is 100 when all counts are equal, and 100 when all
    counts are 0, where nothing is divided. *)
Theorem balancing_efficiency_scalar `{!KernelLaws K} b :
  cashierAssignments b ≠ [] →
  numCashiers b = Z.of_nat (length (cashierAssignments b)) →
  Forall in_int (cashierAssignments b) →
  ∃ scalars e mn mx,
    Balancer_finish b = Ok scalars ∧
    scalar "balancingEfficiency" scalars = Some e ∧
    minimum (cashierAssignments b) mn ∧
    maximum (cashierAssignments b) mx ∧
    (0 < mx →
     e = dmul (ddiv (double_of_int mn) (double_of_int mx)) (double_of_int 100)) ∧
    ((∀ x y, x ∈ cashierAssignments b → y ∈ cashierAssignments b → x = y) →
     e = double_of_int 100) ∧
    ((∀ x, x ∈ cashierAssignments b → x = 0) →
     e = double_of_int 100 ∧
     balancingEfficiency (cashierAssignments b) = Ok (double_of_int 100)).
Proof.
  intros Hne Hn Hint.
  destruct (balancingEfficiency_Ok _ Hne) as (mn & mx & Hmin & Hmax & He).
  destruct (assignment_scalars_Ok (cashierAssignments b)
              (Z.to_nat (numCashiers b)) 0) as [rest Hrest]; [lia|lia|].
  assert (in_int mx) as Hmx.
  { destruct Hmax as [Hin _]. by eapply (proj1 (Forall_forall _ _) Hint). }
  assert (in_int 0) as H0 by (unfold in_int, INT_MIN, INT_MAX; lia).
  rewrite (dgt_of_int mx 0 Hmx H0) in He.
  eexists _, _, mn, mx. unfold Balancer_finish.
  rewrite He, Hrest. simpl. split; [done|]. split; [done|].
  split; [done|]. split; [done|]. split; [|split].
  - intros Hpos. by rewrite bool_decide_eq_true_2.
  - intros Heq. case_bool_decide as Hpos; [|done].
    assert (mn = mx) as -> by (apply Heq; [apply Hmin|apply Hmax]).
    rewrite ddiv_diag by (done || lia). apply dmul_1_l.
  - intros Hz. assert (mx = 0) as -> by (apply Hz, Hmax).
    rewrite bool_decide_eq_false_2 in * by lia. done.
Qed.

End Balancer_facts.

(** ** Cashier *)

Section Cashier_facts.
Context {K : Kernel}.
Implicit Types (s : Cashier) (w : World K) (customer : Customer).

Lemma emit_rng signal v w : rng (emit signal v w) = rng w.
Proof. reflexivity. Qed.

Lemma service_loop_spec (n : nat) (acc : double) w :
  service_loop n acc w
  = (fold_left dadd (uniform_draws n (rng w)).1 acc,
     {| rng := (uniform_draws n (rng w)).2;
        emitted := emitted w; sent := sent w;
        next_address := next_address w |}).
Proof.
  revert acc w. induction n as [|n IH]; intros acc w; simpl.
  - by destruct w.
  - unfold draw. destruct (uniform (dlit 0.5) (dlit 2) (rng w)) as [u g'].
    rewrite IH. simpl. by destruct (uniform_draws n g') as [us g''].
Qed.

Lemma uniform_draws_length (n : nat) (g : RNG) :
  length (uniform_draws n g).1 = n.
Proof.
  revert g. induction n as [|n IH]; intros g; simpl; [done|].
  destruct (uniform (dlit 0.5) (dlit 2) g) as [u g'].
  specialize (IH g'). destruct (uniform_draws n g') as [us g'']. simpl in *.
  by rewrite IH.
Qed.

(** The service time [startService] computes for a customer with [items]
    items when the generator is in state [g]. *)
Lemma startService_eq now customer s w :
  let items := numberOfItems customer.2 in
  let draws := uniform_draws (Z.to_nat items) (rng w) in
  let serviceTime := fold_left dadd draws.1 (dlit 0) in
  let waitingTime := SIMTIME_DBL (simtime_sub now (arrivalTime customer.2)) in
  let idleTime := simtime_sub now (lastServiceEndTime s) in
  startService now customer s w
  = (served ← int_add (customersServed s) 1;
     itemsProcessed ← int_add (totalItemsProcessed s) items;
     timer ← scheduleAt now (simtime_add now (simtime_of_double serviceTime))
                        (processCustomerTimer s);
     Ok ({| customerQueue := customerQueue s;
            processCustomerTimer := timer;
            isBusy := true;
            cashierIndex := cashierIndex s;
            currentCustomer :=
              Some (customer.1,
                    {| customerId := customerId customer.2;
                       numberOfItems := items;
                       arrivalTime := arrivalTime customer.2;
                       serviceStartTime := now;
                       totalWaitingTime := waitingTime |});
            lastServiceEndTime := lastServiceEndTime s;
            totalIdleTime :=
              if isBusy s then totalIdleTime s
              else simtime_add (totalIdleTime s) idleTime;
            customersServed := served;
            totalServiceTime := dadd (totalServiceTime s) serviceTime;
            totalItemsProcessed := itemsProcessed |},
         {| rng := draws.2;
            emitted :=
              emitted w
              ++ (if isBusy s then []
                  else [("idleTime", SDouble (SIMTIME_DBL idleTime))])
              ++ [("waitingTime", SDouble waitingTime);
                  ("serviceTime", SDouble serviceTime)];
            sent := sent w;
            next_address := next_address w |})).
Proof.
  intros items draws serviceTime waitingTime idleTime.
  unfold startService.
  destruct (isBusy s) eqn:Hbusy; rewrite service_loop_spec; simpl;
    fold items; rewrite ?Hbusy;
    (destruct (int_add (customersServed s) 1) as [served|]; [|done]);
    (destruct (int_add (totalItemsProcessed s) items) as [processed|]; [|done]);
    unfold scheduleAt; (destruct (simtime_lt _ now); [done|]);
    (destruct (processCustomerTimer s) as [t|]; [done|]);
    simpl; unfold emit; simpl; rewrite <- ?app_assoc; reflexivity.
Qed.

Lemma startService_inv now customer s w s' w' :
  startService now customer s w = Ok (s', w') →
  processCustomerTimer s = None ∧
  in_int (customersServed s + 1) ∧
  in_int (totalItemsProcessed s + numberOfItems customer.2) ∧
  customerQueue s' = customerQueue s ∧
  isBusy s' = true ∧
  (∃ current, currentCustomer s' = Some current ∧ current.1 = customer.1) ∧
  is_Some (processCustomerTimer s') ∧
  lastServiceEndTime s' = lastServiceEndTime s ∧
  totalIdleTime s'
  = (if isBusy s then totalIdleTime s
     else simtime_add (totalIdleTime s) (simtime_sub now (lastServiceEndTime s))).
Proof.
  rewrite startService_eq.
  intros (served & [_ Hs]%int_add_inv & H)%bind_Ok.
  apply bind_Ok in H as (processed & [_ Hp]%int_add_inv & H).
  apply bind_Ok in H as (timer & Ht & H).
  unfold scheduleAt in Ht.
  destruct (simtime_lt _ now); [done|].
  destruct (processCustomerTimer s) as [t|]; [done|].
  injection Ht as <-. injection H as <- <-. simpl.
  split_and!; try done; by eexists.
Qed.

(** A sum of [uniform(0.5, 2.0)] draws added to a value that is not
    negative is not negative. *)
Lemma service_time_nonneg `{!SchedulingLaws K} (n : nat) (g : RNG) (acc : double) :
  dgt (dlit 0) acc = false →
  dgt (dlit 0) (fold_left dadd (uniform_draws n g).1 acc) = false.
Proof.
  revert g acc. induction n as [|n IH]; intros g acc Hacc; simpl; [done|].
  pose proof (uniform_nonneg (dlit 0.5) (dlit 2) g) as Hu.
  destruct (uniform (dlit 0.5) (dlit 2) g) as [u g'].
  specialize (IH g' (dadd acc u)).
  destruct (uniform_draws n g') as [us g'']. simpl in *.
  apply IH, dadd_nonneg; [done|].
  apply Hu; by apply dlit_le.
Qed.

(** The completion of a service is never due before the service begins. *)
Lemma service_schedule_ahead `{!SchedulingLaws K} now (n : nat) (g : RNG) :
  simtime_lt
    (simtime_add now
       (simtime_of_double (fold_left dadd (uniform_draws n g).1 (dlit 0))))
    now = false.
Proof. apply schedule_ahead, service_time_nonneg. by apply dlit_le. Qed.

Lemma scheduleAt_service `{!SchedulingLaws K} now (n : nat) (g : RNG) :
  let t :=
    simtime_add now
      (simtime_of_double (fold_left dadd (uniform_draws n g).1 (dlit 0))) in
  scheduleAt now t None = Ok (Some t).
Proof. intros t. unfold scheduleAt, t. by rewrite service_schedule_ahead. Qed.

Lemma startService_Ok `{!SchedulingLaws K} now customer s w :
  processCustomerTimer s = None →
  in_int (customersServed s + 1) →
  in_int (totalItemsProcessed s + numberOfItems customer.2) →
  is_Ok (startService now customer s w).
Proof.
  intros Ht Hs Hp. rewrite startService_eq.
  rewrite !int_add_Ok by done. rewrite Ht, scheduleAt_service. simpl.
  by eexists.
Qed.

(** C3.  [startService] at time [now]: the service duration is the sum of
    one [uniform(0.5, 2.0)] draw per item, each draw made from the
    generator state the one before left; the customer gets
    [serviceStartTime = now] and [totalWaitingTime = now - arrivalTime];
    the completion timer is set to [now + serviceDuration], a time the
    kernel accepts since no draw is negative; the served count grows by
    one, the service time by the duration, the items processed by the
    item count. *)
Theorem startService_begins_service `{!SchedulingLaws K} now customer s w :
  processCustomerTimer s = None →
  in_int (customersServed s + 1) →
  in_int (totalItemsProcessed s + numberOfItems customer.2) →
  let items := numberOfItems customer.2 in
  let draws := uniform_draws (Z.to_nat items) (rng w) in
  let serviceDuration := fold_left dadd draws.1 (dlit 0) in
  let waitingTime := SIMTIME_DBL (simtime_sub now (arrivalTime customer.2)) in
  ∃ s' w',
    startService now customer s w = Ok (s', w') ∧
    length draws.1 = Z.to_nat items ∧
    rng w' = draws.2 ∧
    isBusy s' = true ∧
    currentCustomer s'
    = Some (customer.1,
            {| customerId := customerId customer.2;
               numberOfItems := items;
               arrivalTime := arrivalTime customer.2;
               serviceStartTime := now;
               totalWaitingTime := waitingTime |}) ∧
    ("waitingTime", SDouble waitingTime) ∈ emitted w' ∧
    ("serviceTime", SDouble serviceDuration) ∈ emitted w' ∧
    processCustomerTimer s'
    = Some (simtime_add now (simtime_of_double serviceDuration)) ∧
    customersServed s' = customersServed s + 1 ∧
    totalServiceTime s' = dadd (totalServiceTime s) serviceDuration ∧
    totalItemsProcessed s' = totalItemsProcessed s + items.
Proof.
  intros Ht Hs Hp items draws serviceDuration waitingTime.
  rewrite startService_eq.
  rewrite !int_add_Ok by done. rewrite Ht, scheduleAt_service. simpl.
  do 2 eexists. split; [reflexivity|]. simpl.
  split; [apply uniform_draws_length|].
  repeat split; try done.
  - rewrite !elem_of_app. right. right. rewrite !elem_of_cons. by left.
  - rewrite !elem_of_app. right. right. rewrite !elem_of_cons. right. by left.
Qed.

(** *** The busy flag and the customer in service *)

Lemma Cashier_inv_init index now w : Cashier_inv (Cashier_initialize index now w).1.
Proof.
  unfold Cashier_inv. simpl. split_and!; try done. constructor.
Qed.

Lemma Cashier_inv_processNext now s w s' w' :
  (isBusy s = true ∨ processCustomerTimer s = None) →
  currentCustomer s = None →
  NoDup (customerQueue s).*1 →
  processNextCustomer now s w = Ok (s', w') →
  (customerQueue s = [] → processCustomerTimer s = None) →
  Cashier_inv s'.
Proof.
  intros Hbusy Hcur Hnd Hok Htimer. unfold processNextCustomer in Hok.
  destruct (customerQueue s) as [|customer rest] eqn:Hq.
  - injection Hok as <- <-. unfold Cashier_inv. simpl.
    rewrite Hcur, Htimer by done. by split_and!.
  - apply startService_inv in Hok
      as (_ & _ & _ & Hq' & Hb' & (current & Hc' & Hc1) & Ht' & _ & _).
    simpl in Hq'. apply NoDup_cons in Hnd as [Hnotin Hnd].
    unfold Cashier_inv. rewrite Hq', Hb', Hc'. split_and!; try done.
    intros ? [= <-]. by rewrite Hc1.
Qed.

Lemma finishService_fields now s :
  currentCustomer (finishService now s) = None ∧
  customerQueue (finishService now s) = customerQueue s ∧
  processCustomerTimer (finishService now s) = processCustomerTimer s ∧
  isBusy (finishService now s) = isBusy s ∧
  totalIdleTime (finishService now s) = totalIdleTime s.
Proof. unfold finishService. by destruct (currentCustomer s) eqn:E. Qed.

Lemma Cashier_inv_step now msg s w s' w' :
  Cashier_inv s →
  Cashier_deliverable now s msg →
  Cashier_handleMessage now msg s w = Ok (s', w') →
  Cashier_inv s'.
Proof.
  intros (Hcur & Htimer & Hidle & Hnd & Hnotin) Hdel Hok.
  destruct msg as [|customer|]; simpl in Hok.
  - destruct (finishService_fields now (set_processCustomerTimer None s))
      as (Hf1 & Hf2 & Hf3 & _).
    eapply Cashier_inv_processNext; [| | |exact Hok|].
    + right. by rewrite Hf3.
    + done.
    + by rewrite Hf2.
    + by rewrite Hf3.
  - destruct Hdel as [Hfresh Hother].
    destruct (isBusy s) eqn:Hbusy.
    + injection Hok as <- <-. unfold Cashier_inv. simpl. rewrite Hbusy.
      split_and!; try done.
      * rewrite fmap_app. apply NoDup_app. split_and!; try done.
        -- intros x Hx ->%list_elem_of_singleton. done.
        -- apply NoDup_singleton.
      * intros current Hc. rewrite fmap_app, elem_of_app.
        intros [Hin|Hin%list_elem_of_singleton].
        -- by eapply Hnotin.
        -- by eapply Hother.
    + rewrite (Hidle eq_refl) in *. simpl in Hok.
      eapply Cashier_inv_processNext; [| | |exact Hok|]; simpl.
      * right. destruct (processCustomerTimer s) eqn:E; [|done].
        assert (false = true) by (apply Htimer; by eexists). done.
      * destruct (currentCustomer s) eqn:E; [|done].
        assert (false = true) by (apply Hcur; by eexists). done.
      * apply NoDup_singleton.
      * done.
  - by injection Hok as <- <-.
Qed.

Lemma Cashier_reachable_inv s : Cashier_reachable s → Cashier_inv s.
Proof.
  induction 1 as [index now w|s w now msg s' w' _ IH Hdel Hstep].
  - apply Cashier_inv_init.
  - by eapply Cashier_inv_step.
Qed.

(** In a reachable state the completion timer is never scheduled
    twice. *)
Lemma startService_schedules_once now customer s w :
  processCustomerTimer s = None →
  startService now customer s w ≠ Err AlreadyScheduled.
Proof.
  intros Ht. rewrite startService_eq.
  unfold int_add, int_checked. repeat case_decide; simpl; try done.
  unfold scheduleAt. destruct (simtime_lt _ now); [done|]. by rewrite Ht.
Qed.

Lemma Cashier_handleMessage_schedules_once now msg s w :
  Cashier_reachable s →
  Cashier_handleMessage now msg s w ≠ Err AlreadyScheduled.
Proof.
  intros (Hcur & Htimer & Hidle & _)%Cashier_reachable_inv.
  destruct msg as [|customer|]; simpl; [| |done].
  - unfold processNextCustomer.
    destruct (finishService_fields now (set_processCustomerTimer None s))
      as (_ & _ & Hf3 & _).
    destruct (customerQueue (finishService now (set_processCustomerTimer None s)))
      as [|first rest]; [done|].
    apply startService_schedules_once. simpl. by rewrite Hf3.
  - destruct (isBusy s) eqn:Hbusy; [done|].
    unfold processNextCustomer. simpl.
    destruct (customerQueue s ++ [customer]) as [|first rest]; [done|].
    apply startService_schedules_once. simpl.
    destruct (processCustomerTimer s) eqn:E; [|done].
    assert (false = true) by (apply Htimer; by eexists). done.
Qed.

(** C4.  A Cashier starts idle with nobody in service; at every boundary
    of its event handler [isBusy] holds exactly when [currentCustomer]
    points to a customer, and that customer is not in the queue. *)
Theorem Cashier_busy_iff_in_service :
  (∀ index now w,
     isBusy (Cashier_initialize index now w).1 = false ∧
     currentCustomer (Cashier_initialize index now w).1 = None ∧
     customerQueue (Cashier_initialize index now w).1 = []) ∧
  (∀ s, Cashier_reachable s →
     (isBusy s = true ↔ is_Some (currentCustomer s)) ∧
     (∀ current, currentCustomer s = Some current →
                 (current.1 ∉ (customerQueue s).*1))).
Proof.
  split; [done|]. intros s Hs.
  destruct (Cashier_reachable_inv s Hs) as (Hcur & _ & _ & _ & Hnotin).
  done.
Qed.

(** *** Idle time *)

Lemma became_idle_at_fields t0 s1 :
  became_idle_at t0 s1 →
  isBusy s1 = false ∧ lastServiceEndTime s1 = t0 ∧
  processCustomerTimer s1 = None ∧ customerQueue s1 = [].
Proof.
  intros [(index & w & ->)|(s & w & w' & Hq & Hok)]; [done|].
  change (processNextCustomer t0
            (finishService t0 (set_processCustomerTimer None s)) w
          = Ok (s1, w')) in Hok.
  unfold processNextCustomer in Hok.
  destruct (finishService_fields t0 (set_processCustomerTimer None s))
    as (_ & Hf2 & Hf3 & _).
  rewrite Hf2 in Hok. simpl in Hok. rewrite Hq in Hok.
  injection Hok as <- _. simpl. by rewrite Hf3.
Qed.

Lemma Cashier_arrival_idle t1 customer s w s' w' :
  isBusy s = false →
  Cashier_handleMessage t1 (CustomerArrival customer) s w = Ok (s', w') →
  isBusy s' = true ∧
  totalIdleTime s'
  = simtime_add (totalIdleTime s) (simtime_sub t1 (lastServiceEndTime s)).
Proof.
  intros Hidle Hok. simpl in Hok. rewrite Hidle in Hok.
  unfold processNextCustomer in Hok. simpl in Hok.
  destruct (customerQueue s ++ [customer]) as [|first rest] eqn:Hq.
  { by destruct (customerQueue s). }
  apply startService_inv in Hok as (_ & _ & _ & _ & Hb & _ & _ & _ & Ht).
  simpl in Ht. rewrite Hidle in Ht. done.
Qed.

Lemma Cashier_arrival_idle_Ok `{!SchedulingLaws K} t1 customer s w :
  isBusy s = false → customerQueue s = [] → processCustomerTimer s = None →
  in_int (customersServed s + 1) →
  in_int (totalItemsProcessed s + numberOfItems customer.2) →
  is_Ok (Cashier_handleMessage t1 (CustomerArrival customer) s w).
Proof.
  intros Hidle Hq Ht Hs Hp. simpl. rewrite Hidle.
  unfold processNextCustomer. simpl. rewrite Hq. simpl.
  by apply startService_Ok.
Qed.

(** C8.  Idle-time accounting.  A Cashier that became idle at [t0] is not
    busy; the next arrival, at [t1], is served at once (its completion
    is due no earlier than [t1], so the kernel accepts the timer) and
    adds exactly [t1 - t0] to the idle time; if instead the run ends at
    [endTime], [finish] adds [endTime - t0], and that total is the
    recorded [totalIdleTime] scalar. *)
Theorem idle_interval_is_accumulated `{!SchedulingLaws K} t0 s1 :
  became_idle_at t0 s1 →
  isBusy s1 = false ∧
  (∀ t1 customer w,
     in_int (customersServed s1 + 1) →
     in_int (totalItemsProcessed s1 + numberOfItems customer.2) →
     is_Ok (Cashier_handleMessage t1 (CustomerArrival customer) s1 w)) ∧
  (∀ t1 customer w s2 w2,
     Cashier_handleMessage t1 (CustomerArrival customer) s1 w = Ok (s2, w2) →
     isBusy s2 = true ∧
     totalIdleTime s2 = simtime_add (totalIdleTime s1) (simtime_sub t1 t0)) ∧
  (∀ endTime,
     totalIdleTime (Cashier_finish endTime s1).1
     = simtime_add (totalIdleTime s1) (simtime_sub endTime t0) ∧
     scalar "totalIdleTime" (Cashier_finish endTime s1).2
     = Some (SIMTIME_DBL
               (simtime_add (totalIdleTime s1) (simtime_sub endTime t0)))).
Proof.
  intros (Hidle & Hlast & Htimer & Hq)%became_idle_at_fields.
  split; [done|]. split; [|split].
  - intros t1 customer w Hs Hp. by apply Cashier_arrival_idle_Ok.
  - intros t1 customer w s2 w2 Hok. rewrite <- Hlast.
    by eapply Cashier_arrival_idle.
  - intros endTime. unfold Cashier_finish. rewrite Hidle, Hlast. done.
Qed.

(** C5, as the code has it.  The scalars [finish] records at time [now]:
    [utilizationRate] is [(totalServiceTime / now) * 100] and [idleRate]
    is [(totalIdleTime / now) * 100], both percentages, and both 0
    unless [now > 0]; [totalIdleTime] here includes the final idle
    interval of a Cashier that is not busy; [averageServiceTime] is
    [totalServiceTime / customersServed], and 0 unless
    [customersServed > 0]. *)
Theorem Cashier_finish_rates now s :
  let s' := (Cashier_finish now s).1 in
  let scalars := (Cashier_finish now s).2 in
  let elapsed := SIMTIME_DBL now in
  totalIdleTime s'
  = (if isBusy s then totalIdleTime s
     else simtime_add (totalIdleTime s) (simtime_sub now (lastServiceEndTime s))) ∧
  scalar "utilizationRate" scalars
  = Some (if dgt elapsed (double_of_int 0)
          then dmul (ddiv (totalServiceTime s) elapsed) (double_of_int 100)
          else double_of_int 0) ∧
  scalar "idleRate" scalars
  = Some (if dgt elapsed (double_of_int 0)
          then dmul (ddiv (SIMTIME_DBL (totalIdleTime s')) elapsed)
                    (double_of_int 100)
          else double_of_int 0) ∧
  scalar "averageServiceTime" scalars
  = Some (if decide (0 < customersServed s)
          then ddiv (totalServiceTime s) (double_of_int (customersServed s))
          else double_of_int 0).
Proof.
  unfold Cashier_finish. by destruct (isBusy s).
Qed.

End Cashier_facts.

(** ** Shop *)

Section Shop_facts.
Context {K : Kernel}.
Implicit Types (s : Shop) (w : World K).

Lemma Shop_handleMessage_eq now s w :
  let items := intuniform 1 25 (rng w) in
  let gap := exponential (arrivalInterval s) items.2 in
  Shop_handleMessage now SelfMessage s w
  = (counter ← int_add (customerCounter s) 1;
     generated ← int_add (customersGenerated s) 1;
     timer ← scheduleAt now (simtime_add now (simtime_of_double gap.1)) None;
     Ok ({| generateCustomerTimer := timer;
            customerCounter := counter;
            arrivalInterval := arrivalInterval s;
            customersGenerated := generated |},
         {| rng := gap.2;
            emitted :=
              emitted w ++ [("customerGenerated", SLong generated);
                            ("interArrivalTime", SDouble gap.1)];
            sent :=
              sent w ++ [("out", -1,
                          (next_address w,
                           {| customerId := customerCounter s;
                              numberOfItems := items.1;
                              arrivalTime := now;
                              serviceStartTime := simtime_of_int 0;
                              totalWaitingTime := double_of_int 0 |}))];
            next_address := Pos.succ (next_address w) |})).
Proof.
  intros items gap. subst items gap.
  unfold Shop_handleMessage, generateCustomer, draw. simpl.
  destruct (int_add (customerCounter s) 1) as [counter|]; [|done]. simpl.
  destruct (intuniform 1 25 (rng w)) as [n g1]. simpl.
  destruct (int_add (customersGenerated s) 1) as [generated|]; [|done]. simpl.
  destruct (exponential (arrivalInterval s) g1) as [d g2]. simpl.
  destruct (scheduleAt now (simtime_add now (simtime_of_double d)) None)
    as [timer|]; [|done]. simpl.
  unfold emit, send. simpl. rewrite <- app_assoc. reflexivity.
Qed.

(** A delay that is not negative is accepted by [scheduleAt]. *)
Lemma scheduleAt_ahead `{!SchedulingLaws K} now (d : double) :
  dgt (dlit 0) d = false →
  scheduleAt now (simtime_add now (simtime_of_double d)) None
  = Ok (Some (simtime_add now (simtime_of_double d))).
Proof. intros Hd. unfold scheduleAt. by rewrite schedule_ahead. Qed.

Lemma Shop_initialize_Ok `{!SchedulingLaws K} par_arrivalInterval now :
  Shop_initialize par_arrivalInterval now
  = Ok {| generateCustomerTimer :=
            Some (simtime_add now (simtime_of_double (dlit 0.1)));
          customerCounter := 1;
          arrivalInterval := par_arrivalInterval;
          customersGenerated := 0 |}.
Proof.
  unfold Shop_initialize. rewrite scheduleAt_ahead; [done|].
  by apply dlit_le.
Qed.

Lemma Shop_step `{!SchedulingLaws K} now s w :
  in_int (customerCounter s + 1) → in_int (customersGenerated s + 1) →
  dgt (arrivalInterval s) (dlit 0) = true →
  ∃ s' w',
    Shop_handleMessage now SelfMessage s w = Ok (s', w') ∧
    is_Some (generateCustomerTimer s') ∧
    customerCounter s' = customerCounter s + 1 ∧
    customersGenerated s' = customersGenerated s + 1 ∧
    arrivalInterval s' = arrivalInterval s ∧
    sent_ids w' = sent_ids w ++ [customerCounter s].
Proof.
  intros Hc Hg Hmean. rewrite Shop_handleMessage_eq.
  rewrite !int_add_Ok by done.
  rewrite scheduleAt_ahead by by apply exponential_nonneg.
  simpl. do 2 eexists. split; [done|]. simpl.
  split_and!; try done.
  unfold sent_ids. simpl. by rewrite fmap_app.
Qed.

Lemma Shop_run_S (n : nat) s w due :
  generateCustomerTimer s = Some due →
  Shop_run (S n) s w
  = Shop_handleMessage due SelfMessage s w ≫= λ '(s', w'), Shop_run n s' w'.
Proof. intros H. simpl. by rewrite H. Qed.

Lemma Shop_run_spec `{!SchedulingLaws K} (n : nat) :
  ∀ s w,
  is_Some (generateCustomerTimer s) →
  dgt (arrivalInterval s) (dlit 0) = true →
  0 ≤ customerCounter s → customerCounter s + Z.of_nat n ≤ INT_MAX →
  0 ≤ customersGenerated s → customersGenerated s + Z.of_nat n ≤ INT_MAX →
  ∃ s' w',
    Shop_run n s w = Ok (s', w') ∧
    is_Some (generateCustomerTimer s') ∧
    customerCounter s' = customerCounter s + Z.of_nat n ∧
    customersGenerated s' = customersGenerated s + Z.of_nat n ∧
    sent_ids w'
    = sent_ids w ++ ((λ k, customerCounter s + Z.of_nat k) <$> seq 0 n).
Proof.
  induction n as [|n IH]; intros s w Ht Hmean Hc Hc' Hg Hg'.
  - exists s, w. simpl. rewrite !Z.add_0_r, app_nil_r. done.
  - destruct Ht as [due Hdue]. rewrite (Shop_run_S _ _ _ _ Hdue).
    destruct (Shop_step due s w)
      as (s1 & w1 & Hstep & Ht1 & Hc1 & Hg1 & Hm1 & Hids); [| |done|].
    { unfold in_int, INT_MIN, INT_MAX in *. lia. }
    { unfold in_int, INT_MIN, INT_MAX in *. lia. }
    rewrite Hstep. simpl.
    destruct (IH s1 w1) as (s' & w' & Hrun & Ht' & Hc2 & Hg2 & Hids');
      [done|by rewrite Hm1|lia..|].
    exists s', w'. split; [done|]. split; [done|].
    split; [lia|]. split; [lia|].
    rewrite Hids', Hids, <- app_assoc. f_equal. simpl.
    rewrite Z.add_0_r. f_equal.
    rewrite <- fmap_S_seq, <- list_fmap_compose.
    apply list_fmap_ext. intros _ k _. simpl. lia.
Qed.

(** C7.  An arrival event of the Shop at time [now], for a mean arrival
    interval above zero: a new customer gets the id [customerCounter],
    which then grows by one, an item count drawn with
    [intuniform(1, 25)], so from 1 to 25, and [arrivalTime = now]; it is
    sent through [out]; the gap drawn with [exponential(arrivalInterval)]
    is not negative, so the kernel accepts [now + gap] and the timer is
    set again to that time.  So after every arrival event the next one
    is pending: started by [initialize] with a mean above zero, the Shop
    handles any number [n] of arrival events, as far as its [int]
    counters reach, and sends the customers 1, ..., [n]. *)
Theorem Shop_arrival_event `{!KernelLaws K} `{!SchedulingLaws K} :
  (∀ now s w,
     in_int (customerCounter s + 1) → in_int (customersGenerated s + 1) →
     dgt (arrivalInterval s) (dlit 0) = true →
     let items := intuniform 1 25 (rng w) in
     let gap := exponential (arrivalInterval s) items.2 in
     1 ≤ items.1 ≤ 25 ∧
     simtime_lt (simtime_add now (simtime_of_double gap.1)) now = false ∧
     ∃ s' w',
       Shop_handleMessage now SelfMessage s w = Ok (s', w') ∧
       sent w'
       = sent w ++ [("out", -1,
                     (next_address w,
                      {| customerId := customerCounter s;
                         numberOfItems := items.1;
                         arrivalTime := now;
                         serviceStartTime := simtime_of_int 0;
                         totalWaitingTime := double_of_int 0 |}))] ∧
       next_address w' ≠ next_address w ∧
       customerCounter s' = customerCounter s + 1 ∧
       rng w' = gap.2 ∧
       generateCustomerTimer s'
       = Some (simtime_add now (simtime_of_double gap.1))) ∧
  (∀ now s w s' w',
     Shop_handleMessage now SelfMessage s w = Ok (s', w') →
     is_Some (generateCustomerTimer s')) ∧
  (∀ (n : nat) par_arrivalInterval now0 w,
     Z.of_nat n < INT_MAX →
     dgt par_arrivalInterval (dlit 0) = true →
     ∃ s0 s' w',
       Shop_initialize par_arrivalInterval now0 = Ok s0 ∧
       Shop_run n s0 w = Ok (s', w') ∧
       is_Some (generateCustomerTimer s') ∧
       customersGenerated s' = Z.of_nat n ∧
       sent_ids w' = sent_ids w ++ ((λ k, 1 + Z.of_nat k) <$> seq 0 n)).
Proof.
  split; [|split].
  - intros now s w Hc Hg Hmean items gap.
    split; [by apply intuniform_range|].
    assert (dgt (dlit 0) gap.1 = false) as Hgap
      by by apply exponential_nonneg.
    split; [by apply schedule_ahead|].
    rewrite Shop_handleMessage_eq.
    rewrite !int_add_Ok by done. fold items gap.
    rewrite scheduleAt_ahead by done.
    simpl. do 2 eexists. split; [done|]. simpl.
    split_and!; try done. lia.
  - intros now s w s' w'. rewrite Shop_handleMessage_eq.
    intros (counter & _ & H)%bind_Ok.
    apply bind_Ok in H as (generated & _ & H).
    apply bind_Ok in H as (timer & Ht & H).
    injection H as <- _. simpl. unfold scheduleAt in Ht.
    destruct (simtime_lt _ now); [done|]. injection Ht as <-. by eexists.
  - intros n par now0 w Hn Hmean. eexists.
    destruct (Shop_run_spec n
      {| generateCustomerTimer :=
           Some (simtime_add now0 (simtime_of_double (dlit 0.1)));
         customerCounter := 1;
         arrivalInterval := par;
         customersGenerated := 0 |} w) as (s' & w' & Hrun & Ht & _ & Hg & Hids);
      simpl; [by eexists|done|unfold INT_MAX in *; lia..|].
    exists s', w'. split; [apply Shop_initialize_Ok|]. done.
Qed.

(** C6, as the code has it.  [initialize] of the Shop checks nothing: for
    every value of the [arrivalInterval] parameter it succeeds, draws
    nothing, keeps the value as the mean and schedules the first arrival
    at [now + 0.1].  The mean is first used when the first arrival
    event, at [due], draws the gap with [exponential]: if [due + gap] is
    before [due], the kernel refuses to schedule the timer and the event
    fails there; otherwise the timer is set to [due + gap]. *)
Theorem Shop_initialize_accepts_any_mean `{!SchedulingLaws K}
    par_arrivalInterval now :
  ∃ s0,
    Shop_initialize par_arrivalInterval now = Ok s0 ∧
    arrivalInterval s0 = par_arrivalInterval ∧
    customerCounter s0 = 1 ∧
    customersGenerated s0 = 0 ∧
    generateCustomerTimer s0
    = Some (simtime_add now (simtime_of_double (dlit 0.1))) ∧
    ∀ due w,
      let gap :=
        (exponential par_arrivalInterval (intuniform 1 25 (rng w)).2).1 in
      let next := simtime_add due (simtime_of_double gap) in
      (simtime_lt next due = true →
       Shop_handleMessage due SelfMessage s0 w = Err ScheduleInPast) ∧
      (simtime_lt next due = false →
       ∃ s1 w1,
         Shop_handleMessage due SelfMessage s0 w = Ok (s1, w1) ∧
         generateCustomerTimer s1 = Some next).
Proof.
  eexists. split; [apply Shop_initialize_Ok|]. split_and!; try reflexivity.
  intros due w gap next. rewrite Shop_handleMessage_eq.
  cbn [customerCounter customersGenerated arrivalInterval].
  rewrite !int_add_Ok by (unfold in_int, INT_MIN, INT_MAX; simpl; lia).
  fold gap next. unfold scheduleAt. rewrite !bind_Ok_l.
  split; intros ->; [done|]. simpl. by do 2 eexists.
Qed.

End Shop_facts.

(** ** More on the Balancer *)

Section Balancer_more.
Context {K : Kernel}.
Implicit Types (b : Balancer) (w : World K) (customer : Customer).

Lemma selectCashier_emitted b w i b1 w1 :
  selectCashier b w = Ok (i, b1, w1) → emitted w1 = emitted w.
Proof.
  unfold selectCashier. destruct (strategy b).
  - intros (i' & _ & H)%bind_Ok. apply bind_Ok in H as (n & _ & H).
    by simplify_eq.
  - intros; by simplify_eq.
  - intros (hi & _ & H)%bind_Ok. unfold draw in H.
    destruct (intuniform 0 hi (rng w)) as [i' g]. by simplify_eq.
  - intros; by simplify_eq.
Qed.

Lemma int_rem_inv (x y r : Z) :
  int_rem x y = Ok r → y ≠ 0 ∧ r = Z.rem x y.
Proof.
  unfold int_rem. case_decide; [done|].
  intros (q & _ & [= <-])%bind_Ok. done.
Qed.

Lemma int_checked_fault z f : int_checked z = Err f → f = SignedOverflow.
Proof. unfold int_checked. case_decide; congruence. Qed.

Lemma vec_incr_fault (v : list Z) (i : Z) f :
  0 ≤ i < Z.of_nat (length v) → vec_incr v i = Err f → f = SignedOverflow.
Proof.
  intros Hi. unfold vec_incr, vec_get. rewrite decide_True by lia.
  destruct (lookup_lt_is_Some_2 v (Z.to_nat i)) as [x ->]; [lia|]. simpl.
  unfold int_add. destruct (int_checked (x + 1)) eqn:E; simpl; [done|].
  intros [= <-]. by eapply int_checked_fault.
Qed.

Lemma selectCashier_counter b w i b1 w1 :
  selectCashier b w = Ok (i, b1, w1) →
  0 ≤ roundRobinCounter b ≤ INT_MAX →
  0 ≤ roundRobinCounter b1 ≤ INT_MAX.
Proof.
  unfold selectCashier. destruct (strategy b).
  - intros (i' & _ & H)%bind_Ok.
    apply bind_Ok in H as (n & [-> Hn]%int_add_inv & H).
    injection H as _ <- _. simpl. unfold in_int in Hn. lia.
  - intros; by simplify_eq.
  - intros (hi & _ & H)%bind_Ok. unfold draw in H.
    destruct (intuniform 0 hi (rng w)) as [i' g]. by simplify_eq.
  - intros; by simplify_eq.
Qed.

Lemma Balancer_reachable_wf b : Balancer_reachable b → Balancer_wf b.
Proof.
  induction 1 as [par N|b w msg b' w' _ (IH1 & IH2 & IH3) Hstep].
  - unfold Balancer_wf. simpl. rewrite length_replicate.
    unfold INT_MAX. split_and!; try done; lia.
  - destruct msg as [|customer|]; simpl in Hstep;
      [by simplify_eq| |by simplify_eq].
    apply Balancer_handleMessage_inv in Hstep
      as (i & b1 & w1 & x & y & Hsel & _ & _ & _ & _ & _ & _ & _ & Hn & Hc & Hq & Ha & _).
    unfold Balancer_wf. rewrite Hn, Hc, Hq, Ha, !length_insert.
    split_and!; try done; by eapply selectCashier_counter.
Qed.

Lemma selectCashier_fault b w f :
  numCashiers b ≠ 0 → selectCashier b w = Err f → f = SignedOverflow.
Proof.
  intros HN. unfold selectCashier. destruct (strategy b); try done.
  - unfold int_rem, int_add. rewrite decide_False by done.
    destruct (int_checked (roundRobinCounter b `quot` numCashiers b)) eqn:E1;
      simpl; [|intros [= <-]; by eapply int_checked_fault].
    destruct (int_checked (roundRobinCounter b + 1)) eqn:E2;
      simpl; [done|intros [= <-]; by eapply int_checked_fault].
  - unfold int_sub.
    destruct (int_checked (numCashiers b - 1)) eqn:E1;
      simpl; [|intros [= <-]; by eapply int_checked_fault].
    unfold draw. by destruct (intuniform 0 a (rng w)).
Qed.

Lemma selectCashier_in_range `{!KernelLaws K} b w i b1 w1 :
  Balancer_wf b → 1 ≤ numCashiers b → named (strategy b) →
  selectCashier b w = Ok (i, b1, w1) →
  0 ≤ i < numCashiers b.
Proof.
  intros (Hq & _ & Hc) HN Hnamed. unfold selectCashier.
  destruct (strategy b); [| | |done].
  - intros (i' & [_ ->]%int_rem_inv & H)%bind_Ok.
    apply bind_Ok in H as (n & _ & H). injection H as <- _ _.
    rewrite Z.rem_mod_nonneg by lia. apply Z.mod_pos_bound. lia.
  - intros [= <- _ _].
    destruct (min_element_spec (cashierQueueLengths b)) as (x & Hx & _).
    { intros E. rewrite E in Hq. simpl in Hq. lia. }
    apply lookup_lt_Some in Hx. lia.
  - intros (hi & [-> _]%int_checked_inv & H)%bind_Ok. unfold draw in H.
    pose proof (intuniform_range 0 (numCashiers b - 1) (rng w) ltac:(lia)) as Hr.
    destruct (intuniform 0 (numCashiers b - 1) (rng w)) as [i' g].
    injection H as <- _ _. simpl in Hr. lia.
Qed.

(** X8.  A Balancer with at least one cashier and one of the three named
    strategies never leaves the bounds of its vectors: in every reachable
    state the cashier it selects exists, and its handler can fail in one
    way only, the overflow of an [int] counter. *)
Theorem Balancer_fails_only_by_overflow `{!KernelLaws K} msg b w :
  Balancer_reachable b → 1 ≤ numCashiers b → named (strategy b) →
  (∀ i b1 w1, selectCashier b w = Ok (i, b1, w1) → 0 ≤ i < numCashiers b) ∧
  (∀ f, Balancer_handleMessage msg b w = Err f → f = SignedOverflow).
Proof.
  intros Hwf%Balancer_reachable_wf HN Hnamed. split.
  - intros i b1 w1. by apply selectCashier_in_range.
  - intros f. destruct msg as [|customer|]; [done| |done].
    unfold Balancer_handleMessage.
    destruct (selectCashier b w) as [[[i b1] w1]|f'] eqn:Hsel; simpl.
    + pose proof (selectCashier_in_range _ _ _ _ _ Hwf HN Hnamed Hsel) as Hi.
      destruct (selectCashier_frame _ _ _ _ _ Hsel) as (-> & -> & -> & _).
      destruct Hwf as (Hq & Ha & _).
      destruct (strategy b); [| | |done]; simpl.
      all: destruct (vec_incr (cashierQueueLengths b) i) eqn:E1; simpl;
        [|intros [= <-]; eapply vec_incr_fault; [|done]; lia].
      all: destruct (vec_incr (cashierAssignments b) i) eqn:E2; simpl;
        [|intros [= <-]; eapply vec_incr_fault; [|done]; lia].
      all: unfold int_add;
        destruct (int_checked (customersForwarded b1 + 1)) eqn:E3; simpl;
        [done|intros [= <-]; by eapply int_checked_fault].
    + intros [= <-]. eapply selectCashier_fault; [|done]. lia.
Qed.

(** X9.  A Balancer without cashiers cannot route: whatever the strategy,
    the first customer makes the handler fail, by a division by zero
    under round robin, by an index outside the empty vectors under
    shortest queue and random, and by the read of the strategy name,
    which was never set, for a strategy value that names none; and
    [finish] fails too, on the largest element of an empty vector. *)
Theorem Balancer_without_cashiers par_strategy customer w :
  (∃ f, Balancer_handleMessage (CustomerArrival customer)
          (Balancer_initialize par_strategy 0) w = Err f ∧
        f ≠ SignedOverflow ∧
        (par_strategy = 0 → f = DivisionByZero) ∧
        (par_strategy = 1 ∨ par_strategy = 2 → f = OutOfBounds) ∧
        (par_strategy < 0 ∨ 2 < par_strategy → f = UninitialisedRead)) ∧
  Balancer_finish (K:=K) (Balancer_initialize par_strategy 0) = Err EmptyRange.
Proof.
  split; [|done].
  assert (∀ i : Z, vec_incr [] i = Err OutOfBounds) as Hempty.
  { intros i. unfold vec_incr, vec_get. by case_decide. }
  unfold Balancer_handleMessage, selectCashier.
  change (strategy (Balancer_initialize par_strategy 0))
    with (strategy_of_int par_strategy).
  destruct (strategy_of_int par_strategy) eqn:Hs; simpl.
  - exists DivisionByZero.
    unfold strategy_of_int in Hs. repeat case_decide; try discriminate Hs.
    split_and!; try done; intros; lia.
  - exists OutOfBounds. rewrite Hs. simpl.
    unfold strategy_of_int in Hs. repeat case_decide; try discriminate Hs.
    split_and!; try done; intros; lia.
  - unfold draw. destruct (intuniform 0 (0 - 1) (rng w)) as [i g]. simpl.
    rewrite Hs. simpl. rewrite Hempty. simpl.
    exists OutOfBounds.
    unfold strategy_of_int in Hs. repeat case_decide; try discriminate Hs.
    split_and!; try done; intros; lia.
  - exists UninitialisedRead. rewrite Hs. simpl.
    unfold strategy_of_int in Hs. repeat case_decide; try discriminate Hs.
    split_and!; try done; intros; lia.
Qed.

(** X10.  The Balancer neither drops, repeats, reorders nor alters a
    customer.  Under every strategy, a run over the customers that arrive
    sends exactly those customers, in their order, each once, through
    gate [out] at the index of a cashier that exists; it emits that index
    as one [loadBalancing] sample, and counts the customer once in
    [customersForwarded]. *)
Theorem Balancer_forwards_every_customer customers :
  ∀ b w b' w',
  route_all customers b w = Ok (b', w') →
  ∃ indices,
    length indices = length customers ∧
    sent w'
    = sent w ++ zip_with (λ i customer, ("out", i, customer)) indices customers ∧
    emitted w'
    = emitted w ++ ((λ i, ("loadBalancing", SLong i)) <$> indices) ∧
    Forall (λ i, 0 ≤ i < Z.of_nat (length (cashierAssignments b))) indices ∧
    customersForwarded b'
    = customersForwarded b + Z.of_nat (length customers).
Proof.
  induction customers as [|customer rest IH]; intros b w b' w' Hrun.
  - injection Hrun as <- <-. exists []. simpl.
    rewrite !app_nil_r, Z.add_0_r. split_and!; done.
  - rewrite route_all_cons in Hrun.
    apply bind_Ok in Hrun as ([b1 w1] & Hstep & Hrun).
    apply Balancer_handleMessage_inv in Hstep
      as (i & b0 & w0 & x & y & Hsel & Hi & _ & _ & Hy & _ & _ & _ & _ & _ & _ & Ha & Hf & ->).
    apply IH in Hrun as (indices & Hlen & Hsent & Hemit & Hrange & Hcount).
    pose proof (selectCashier_emitted _ _ _ _ _ Hsel) as He.
    apply selectCashier_frame in Hsel as (_ & _ & _ & _ & _ & Hs).
    exists (i :: indices). simpl. split_and!.
    + by rewrite Hlen.
    + rewrite Hsent. simpl. by rewrite Hs, <- app_assoc.
    + rewrite Hemit. simpl. by rewrite He, <- app_assoc.
    + constructor.
      * apply lookup_lt_Some in Hy. lia.
      * by rewrite Ha, length_insert in Hrange.
    + rewrite Hcount, Hf. lia.
Qed.

(** *** Dealing in turn *)

Lemma counts_after_zero N : counts_after N 0 (replicate (Z.to_nat N) 0).
Proof.
  split; [by rewrite length_replicate|].
  intros i x [-> _]%lookup_replicate.
  rewrite Zdiv_0_l, Zmod_0_l. case_decide; lia.
Qed.

Lemma counts_after_step N c (l : list Z) x :
  1 ≤ N → 0 ≤ c →
  counts_after N c l →
  l !! Z.to_nat (c `mod` N) = Some x →
  counts_after N (c + 1) (<[Z.to_nat (c `mod` N) := x + 1]> l).
Proof.
  intros HN Hc [Hlen Hl] Hx. split; [by rewrite length_insert|].
  assert (0 ≤ c `mod` N < N) as Hr by (apply Z.mod_pos_bound; lia).
  pose proof (Z.div_mod c N ltac:(lia)) as Hdm.
  assert ((c + 1) `div` N = (if decide (c `mod` N + 1 < N)
                             then c `div` N else c `div` N + 1) ∧
          (c + 1) `mod` N = (if decide (c `mod` N + 1 < N)
                             then c `mod` N + 1 else 0)) as [Hd Hm].
  { case_decide.
    - assert ((c + 1) `div` N = c `div` N) as Hq
        by (symmetry; apply (Z.div_unique _ _ _ (c `mod` N + 1)); lia).
      split; [done|].
      symmetry. apply (Z.mod_unique _ _ (c `div` N)); lia.
    - assert ((c + 1) `div` N = c `div` N + 1) as Hq
        by (symmetry; apply (Z.div_unique _ _ _ 0); lia).
      split; [done|].
      symmetry. apply (Z.mod_unique _ _ (c `div` N + 1)); lia. }
  intros i y Hy. rewrite Hd, Hm.
  destruct (decide (i = Z.to_nat (c `mod` N))) as [->|Hne].
  - rewrite list_lookup_insert_eq in Hy by by eapply lookup_lt_Some.
    injection Hy as <-. specialize (Hl _ _ Hx).
    repeat case_decide; lia.
  - rewrite list_lookup_insert_ne in Hy by done.
    pose proof (lookup_lt_Some _ _ _ Hy) as Hi.
    specialize (Hl _ _ Hy). repeat case_decide; lia.
Qed.

Lemma counts_after_within_one N c (l : list Z) :
  counts_after N c l → within_one l.
Proof.
  intros [_ Hl] x y [i Hx]%list_elem_of_lookup [j Hy]%list_elem_of_lookup.
  rewrite (Hl _ _ Hx), (Hl _ _ Hy).
  repeat case_decide; lia.
Qed.

Lemma counts_after_first_minimum N c (l : list Z) :
  1 ≤ N → 0 ≤ c →
  counts_after N c l →
  first_minimum l (Z.to_nat (c `mod` N)) (c `div` N).
Proof.
  intros HN Hc [Hlen Hl].
  assert (0 ≤ c `mod` N < N) as Hr by (apply Z.mod_pos_bound; lia).
  destruct (lookup_lt_is_Some_2 l (Z.to_nat (c `mod` N))) as [x Hx]; [lia|].
  split_and!.
  - rewrite Hx, (Hl _ _ Hx). case_decide; [lia|]. f_equal. lia.
  - intros j y Hy. rewrite (Hl _ _ Hy). case_decide; lia.
  - intros j y Hj Hy. rewrite (Hl _ _ Hy). case_decide; lia.
Qed.

Lemma selectCashier_rr b w i b1 w1 :
  strategy b = ROUND_ROBIN →
  0 ≤ roundRobinCounter b → 1 ≤ numCashiers b →
  selectCashier b w = Ok (i, b1, w1) →
  i = roundRobinCounter b `mod` numCashiers b.
Proof.
  intros Hs Hc HN. unfold selectCashier. rewrite Hs.
  intros (i' & [_ ->]%int_rem_inv & H)%bind_Ok.
  apply bind_Ok in H as (n & _ & H). injection H as <- _ _.
  apply Z.rem_mod_nonneg; lia.
Qed.

Lemma rr_run_counts N customers :
  1 ≤ N → ∀ c b w b' w',
  rr_inv N c b → 0 ≤ c →
  counts_after N c (cashierAssignments b) →
  route_all customers b w = Ok (b', w') →
  counts_after N (c + Z.of_nat (length customers)) (cashierAssignments b').
Proof.
  intros HN. induction customers as [|customer rest IH];
    intros c b w b' w' Hinv Hc Hcounts Hrun.
  - injection Hrun as <- _. simpl. by rewrite Z.add_0_r.
  - rewrite route_all_cons in Hrun.
    apply bind_Ok in Hrun as ([b1 w1] & Hstep & Hrun).
    assert (c < INT_MAX) as Hc'.
    { destruct (decide (c < INT_MAX)) as [|Hge]; [done|].
      destruct Hinv as (Hs & Hn & Hcc & _).
      apply Balancer_handleMessage_inv in Hstep
        as (i & b0 & w0 & x & y & Hsel & _).
      unfold selectCashier in Hsel. rewrite Hs, Hcc in Hsel.
      apply bind_Ok in Hsel as (sel & _ & Hsel).
      apply bind_Ok in Hsel as (n & [_ Hin]%int_add_inv & _).
      unfold in_int in Hin. lia. }
    destruct (rr_step N c b customer w HN Hinv Hc Hc') as (b1' & Hstep' & Hinv1).
    assert (b1' = b1) as -> by congruence.
    pose proof Hstep as Hstep0.
    apply Balancer_handleMessage_inv in Hstep
      as (i & b0 & w0 & x & y & Hsel & _ & _ & _ & Hy & _ & _ & _ & _ & _ & _ & Ha & _).
    destruct Hinv as (Hs & Hn & Hcc & _).
    apply selectCashier_rr in Hsel; [|done|lia|lia].
    rewrite Hcc, Hn in Hsel. subst i.
    replace (c + Z.of_nat (length (customer :: rest)))
      with (c + 1 + Z.of_nat (length rest)) by (simpl length; lia).
    eapply (IH (c + 1)); [done|lia| |done].
    rewrite Ha. by apply counts_after_step.
Qed.

(** X11.  Round robin deals evenly.  After [n] routing decisions that
    started at [initialize], every one of the [N] cashiers has been
    assigned [n / N] customers, and the first [n mod N] cashiers one more:
    no two assignment counts differ by more than one. *)
Theorem round_robin_deals_evenly (N : Z) (customers : list Customer) w :
  1 ≤ N →
  (Z.of_nat (length customers) ≤ INT_MAX →
   is_Ok (route_all customers (Balancer_initialize 0 N) w)) ∧
  (∀ b' w',
     route_all customers (Balancer_initialize 0 N) w = Ok (b', w') →
     counts_after N (Z.of_nat (length customers)) (cashierAssignments b') ∧
     within_one (cashierAssignments b')).
Proof.
  intros HN. pose proof (rr_inv_init N ltac:(lia)) as Hinit. split.
  - intros Hlen.
    destruct (rr_run N customers HN 0 _ w Hinit) as (b' & w' & H1 & _);
      [lia|lia|]. by exists (b', w').
  - intros b' w' Hrun.
    pose proof (rr_run_counts N customers HN 0 _ w b' w' Hinit ltac:(lia)
                  (counts_after_zero N) Hrun) as Hcounts.
    rewrite Z.add_0_l in Hcounts. split; [done|].
    by eapply counts_after_within_one.
Qed.

Lemma route_all_reachable customers :
  ∀ b w b' w',
  Balancer_reachable b → route_all customers b w = Ok (b', w') →
  Balancer_reachable b'.
Proof.
  induction customers as [|customer rest IH]; intros b w b' w' Hb Hrun.
  - simpl in Hrun. by injection Hrun as <- _.
  - rewrite route_all_cons in Hrun.
    apply bind_Ok in Hrun as ([b1 w1] & Hstep & Hrun).
    eapply IH; [|exact Hrun]. by eapply Balancer_reachable_step.
Qed.

Lemma sq_inv_init N : sq_inv N 0 (Balancer_initialize 1 N).
Proof. split_and!; try done. apply counts_after_zero. Qed.

Lemma sq_inv_step N c b customer w :
  1 ≤ N → sq_inv N c b → 0 ≤ c → c < INT_MAX →
  ∃ b', Balancer_handleMessage (CustomerArrival customer) b w
          = Ok (b', send customer "out" (c `mod` N)
                      (emit "loadBalancing" (SLong (c `mod` N)) w)) ∧
        sq_inv N (c + 1) b'.
Proof.
  intros HN (Hs & Hf & Ha & Hcounts) Hc Hc'.
  pose proof (counts_after_first_minimum N c _ HN Hc Hcounts) as Hmin.
  assert (0 ≤ c `mod` N < N) as Hr by (apply Z.mod_pos_bound; lia).
  assert (0 ≤ c `div` N ≤ c) as Hq.
  { split; [apply Z.div_pos; lia|]. apply Z.div_le_upper_bound; nia. }
  assert (in_int (c `div` N + 1)) as Hin
    by (unfold in_int, INT_MIN, INT_MAX in *; lia).
  eexists. split.
  - rewrite (sq_step b w customer _ _ (c `div` N) Hs Hmin).
    + by rewrite Z2Nat.id by lia.
    + rewrite Ha. apply Hmin.
    + done.
    + done.
    + rewrite Hf. unfold in_int, INT_MIN, INT_MAX in *. lia.
  - split_and!; simpl; try done.
    + by rewrite Hf.
    + by rewrite Ha.
    + apply counts_after_step; try done. apply Hmin.
Qed.

Lemma sq_run N customers :
  1 ≤ N → ∀ c b w,
  sq_inv N c b → 0 ≤ c → c + Z.of_nat (length customers) ≤ INT_MAX →
  ∃ b' w', route_all customers b w = Ok (b', w') ∧
           sq_inv N (c + Z.of_nat (length customers)) b' ∧
           decisions w' = decisions w ++ rr_indices N c (length customers).
Proof.
  intros HN. induction customers as [|customer rest IH]; intros c b w Hinv Hc Hlen.
  - exists b, w. simpl. rewrite Z.add_0_r, app_nil_r. done.
  - simpl length in *.
    destruct (sq_inv_step N c b customer w) as (b1 & Hstep & Hinv1);
      [lia|done|lia|lia|].
    destruct (IH (c + 1) b1
      (send customer "out" (c `mod` N) (emit "loadBalancing" (SLong (c `mod` N)) w)))
      as (b' & w' & Hrun & Hinv' & Hdec); [done|lia|lia|].
    exists b', w'. rewrite route_all_cons, Hstep. simpl. split; [done|]. split.
    + by replace (c + Z.of_nat (S (length rest)))
        with (c + 1 + Z.of_nat (length rest)) by lia.
    + rewrite Hdec, decisions_send, rr_indices_S, <- app_assoc. done.
Qed.

Lemma sq_run_bounded N customers :
  1 ≤ N → ∀ c b w b' w',
  sq_inv N c b → 0 ≤ c → c ≤ INT_MAX →
  route_all customers b w = Ok (b', w') →
  c + Z.of_nat (length customers) ≤ INT_MAX.
Proof.
  intros HN. induction customers as [|customer rest IH];
    intros c b w b' w' Hinv Hc Hc' Hrun.
  - simpl. lia.
  - rewrite route_all_cons in Hrun.
    apply bind_Ok in Hrun as ([b1 w1] & Hstep & Hrun).
    assert (c < INT_MAX) as Hlt.
    { apply Balancer_handleMessage_inv in Hstep
        as (i & b0 & w0 & x & y & _ & _ & _ & _ & _ & _ & Hin & _).
      destruct Hinv as (_ & Hf & _). rewrite Hf in Hin.
      unfold in_int in Hin. lia. }
    destruct (sq_inv_step N c b customer w HN Hinv Hc Hlt) as (b1' & Hstep' & Hinv1).
    assert (b1' = b1) as -> by congruence.
    eapply (IH (c + 1)) in Hrun; [|done|lia|lia]. simpl length. lia.
Qed.

(** X12.  Without feedback, shortest queue is round robin.  Started at
    [initialize], the shortest-queue strategy sends the [k]-th customer to
    cashier [k mod N], exactly as round robin does, whatever the cashiers
    have served meanwhile; so its counts too never differ by more than
    one. *)
Theorem shortest_queue_deals_in_turn (N : Z) (customers : list Customer) w :
  1 ≤ N →
  (is_Ok (route_all customers (Balancer_initialize 1 N) w)
   ↔ Z.of_nat (length customers) ≤ INT_MAX) ∧
  (∀ b' w',
     route_all customers (Balancer_initialize 1 N) w = Ok (b', w') →
     decisions w' = decisions w ++ rr_indices N 0 (length customers) ∧
     counts_after N (Z.of_nat (length customers)) (cashierAssignments b') ∧
     within_one (cashierAssignments b')).
Proof.
  intros HN. pose proof (sq_inv_init N) as Hinit.
  assert (∀ b' w',
            route_all customers (Balancer_initialize 1 N) w = Ok (b', w') →
            Z.of_nat (length customers) ≤ INT_MAX) as Hbound.
  { intros b' w' Hrun.
    by apply (sq_run_bounded N customers HN 0 _ w b' w' Hinit). }
  split; [split|].
  - intros [[b' w'] Hrun]. by eapply Hbound.
  - intros Hlen.
    destruct (sq_run N customers HN 0 _ w Hinit) as (b' & w' & H1 & _);
      [lia|lia|]. by exists (b', w').
  - intros b' w' Hrun. pose proof (Hbound _ _ Hrun) as Hlen.
    destruct (sq_run N customers HN 0 _ w Hinit)
      as (b'' & w'' & H1 & (_ & _ & Ha & Hcounts) & Hdec); [lia|lia|].
    rewrite Hrun in H1. injection H1 as <- <-.
    rewrite Z.add_0_l in Hcounts. rewrite Ha.
    split; [done|]. split; [done|]. by eapply counts_after_within_one.
Qed.

(** *** The scalars of every cashier *)

Lemma string_app_length (a t : string) :
  String.length (a +:+ t) = (String.length a + String.length t)%nat.
Proof. induction a as [|x a IH]; simpl; [done|]. by rewrite IH. Qed.

Lemma string_app_inj_r (a a' t : string) : a +:+ t = a' +:+ t → a = a'.
Proof.
  revert a'. induction a as [|x a IH]; intros [|y a'] H; simpl in H.
  - done.
  - apply (f_equal String.length) in H. simpl in H.
    rewrite !string_app_length in H. simpl in H. lia.
  - apply (f_equal String.length) in H. simpl in H.
    rewrite !string_app_length in H. simpl in H. lia.
  - injection H as -> H. f_equal. by apply IH.
Qed.

Lemma assignment_name_inj (i j : Z) :
  "cashier" +:+ pretty i +:+ "_assignments"
  = "cashier" +:+ pretty j +:+ "_assignments" → i = j.
Proof.
  intros H. simpl in H. simplify_eq.
  match goal with
  | H : _ +:+ _ = _ +:+ _ |- _ => apply string_app_inj_r in H
  end.
  by apply (inj pretty).
Qed.

Lemma assignment_scalars_lookup (l : list Z) (n : nat) :
  ∀ (i0 : Z) (scalars : Scalars) (k : nat) x,
  0 ≤ i0 →
  assignment_scalars l i0 n = Ok scalars →
  (k < n)%nat → l !! (Z.to_nat i0 + k)%nat = Some x →
  scalar ("cashier" +:+ pretty (i0 + Z.of_nat k) +:+ "_assignments") scalars
  = Some (double_of_int x).
Proof.
  induction n as [|n IH]; intros i0 scalars k x Hi0 Hok Hk Hx; [lia|].
  cbn [assignment_scalars] in Hok.
  apply bind_Ok in Hok as (x0 & [_ Hx0]%vec_get_inv & Hok).
  apply bind_Ok in Hok as (rest & Hrest & [= <-]).
  cbn [scalar]. destruct k as [|k].
  - rewrite Z.add_0_r, Nat.add_0_r in *. rewrite decide_True by done.
    congruence.
  - rewrite decide_False by (intros ?%assignment_name_inj; lia).
    replace (i0 + Z.of_nat (S k)) with (i0 + 1 + Z.of_nat k) by lia.
    eapply IH; [lia|done|lia|].
    by replace (Z.to_nat (i0 + 1) + k)%nat with (Z.to_nat i0 + S k)%nat by lia.
Qed.

(** X13.  What [finish] of the Balancer records.  In a reachable state with
    at least one cashier [finish] succeeds; the scalar [customersForwarded]
    is the number of customers forwarded, the scalar
    [cashier<i>_assignments] is the assignment count of cashier [i], for
    every cashier, and these counts add up to the customers forwarded. *)
Theorem Balancer_finish_reports_assignments b :
  Balancer_reachable (K:=K) b → 1 ≤ numCashiers b →
  ∃ scalars,
    Balancer_finish (K:=K) b = Ok scalars ∧
    scalar "customersForwarded" scalars
    = Some (double_of_int (customersForwarded b)) ∧
    (∀ (i : nat) x,
       cashierAssignments b !! i = Some x →
       scalar ("cashier" +:+ pretty (Z.of_nat i) +:+ "_assignments") scalars
       = Some (double_of_int x)) ∧
    foldr Z.add 0 (cashierAssignments b) = customersForwarded b.
Proof.
  intros Hreach HN.
  destruct (Balancer_reachable_wf b Hreach) as (_ & Hlen & _).
  destruct (Balancer_reachable_inv b Hreach) as [_ Hsum].
  destruct (balancingEfficiency_Ok (cashierAssignments b))
    as (mn & mx & _ & _ & He).
  { intros E. rewrite E in Hlen. simpl in Hlen. lia. }
  destruct (assignment_scalars_Ok (cashierAssignments b)
              (Z.to_nat (numCashiers b)) 0) as [rest Hrest]; [lia|lia|].
  eexists. unfold Balancer_finish. rewrite He, Hrest. simpl.
  split; [done|]. split; [done|]. split; [|done].
  intros i x Hx. cbn [scalar].
  rewrite decide_False by (intros E; simpl in E; discriminate E).
  rewrite decide_False by (intros E; simpl in E; discriminate E).
  apply (assignment_scalars_lookup _ _ 0 rest i x ltac:(lia) Hrest).
  - apply lookup_lt_Some in Hx. lia.
  - done.
Qed.

End Balancer_more.

(** ** More on the Cashier *)

Section Cashier_more.
Context {K : Kernel}.
Implicit Types (s : Cashier) (w : World K) (customer : Customer).

Lemma startService_Ok_inv now customer s w s' w' :
  startService now customer s w = Ok (s', w') →
  let items := numberOfItems customer.2 in
  let draws := uniform_draws (Z.to_nat items) (rng w) in
  let serviceTime := fold_left dadd draws.1 (dlit 0) in
  let waitingTime := SIMTIME_DBL (simtime_sub now (arrivalTime customer.2)) in
  let idleTime := simtime_sub now (lastServiceEndTime s) in
  processCustomerTimer s = None ∧
  in_int (customersServed s + 1) ∧
  in_int (totalItemsProcessed s + items) ∧
  s' = {| customerQueue := customerQueue s;
          processCustomerTimer :=
            Some (simtime_add now (simtime_of_double serviceTime));
          isBusy := true;
          cashierIndex := cashierIndex s;
          currentCustomer :=
            Some (customer.1,
                  {| customerId := customerId customer.2;
                     numberOfItems := items;
                     arrivalTime := arrivalTime customer.2;
                     serviceStartTime := now;
                     totalWaitingTime := waitingTime |});
          lastServiceEndTime := lastServiceEndTime s;
          totalIdleTime :=
            if isBusy s then totalIdleTime s
            else simtime_add (totalIdleTime s) idleTime;
          customersServed := customersServed s + 1;
          totalServiceTime := dadd (totalServiceTime s) serviceTime;
          totalItemsProcessed := totalItemsProcessed s + items |} ∧
  emitted w'
  = emitted w
    ++ (if isBusy s then []
        else [("idleTime", SDouble (SIMTIME_DBL idleTime))])
    ++ [("waitingTime", SDouble waitingTime);
        ("serviceTime", SDouble serviceTime)] ∧
  rng w' = draws.2.
Proof.
  intros Hok items draws serviceTime waitingTime idleTime.
  rewrite startService_eq in Hok.
  apply bind_Ok in Hok as (served & [-> Hs]%int_add_inv & H).
  apply bind_Ok in H as (processed & [-> Hp]%int_add_inv & H).
  apply bind_Ok in H as (timer & Ht & H).
  unfold scheduleAt in Ht.
  destruct (simtime_lt _ now); [done|].
  destruct (processCustomerTimer s) as [t|]; [done|].
  injection Ht as <-. injection H as <- <-. done.
Qed.

Lemma startService_fault `{!SchedulingLaws K} now customer s w f :
  processCustomerTimer s = None →
  startService now customer s w = Err f → f = SignedOverflow.
Proof.
  intros Ht. rewrite startService_eq.
  unfold int_add, int_checked. repeat case_decide; simpl; try congruence.
  by rewrite Ht, scheduleAt_service.
Qed.

Lemma Cashier_timer_eq now s w :
  Cashier_handleMessage now SelfMessage s w
  = processNextCustomer now (finishService now (set_processCustomerTimer None s)) w.
Proof. reflexivity. Qed.

Lemma Cashier_arrival_busy_eq now customer s w :
  isBusy s = true →
  Cashier_handleMessage now (CustomerArrival customer) s w
  = Ok (set_customerQueue (customerQueue s ++ [customer]) s,
        emit "queueLength"
          (SLong (Z.of_nat (length (customerQueue s ++ [customer])))) w).
Proof. intros H. simpl. by rewrite H. Qed.

Lemma Cashier_arrival_idle_eq now customer s w :
  isBusy s = false →
  Cashier_handleMessage now (CustomerArrival customer) s w
  = processNextCustomer now
      (set_customerQueue (customerQueue s ++ [customer]) s)
      (emit "queueLength"
         (SLong (Z.of_nat (length (customerQueue s ++ [customer])))) w).
Proof. intros H. simpl. by rewrite H. Qed.

Lemma processNextCustomer_cons now s w first rest :
  customerQueue s = first :: rest →
  processNextCustomer now s w
  = startService now first (set_customerQueue rest s)
      (emit "queueLength" (SLong (Z.of_nat (length rest))) w).
Proof. intros H. unfold processNextCustomer. by rewrite H. Qed.

Lemma processNextCustomer_nil now s w :
  customerQueue s = [] →
  processNextCustomer now s w
  = Ok ({| customerQueue := [];
           processCustomerTimer := processCustomerTimer s;
           isBusy := false;
           cashierIndex := cashierIndex s;
           currentCustomer := currentCustomer s;
           lastServiceEndTime := now;
           totalIdleTime := totalIdleTime s;
           customersServed := customersServed s;
           totalServiceTime := totalServiceTime s;
           totalItemsProcessed := totalItemsProcessed s |}, w).
Proof. intros H. unfold processNextCustomer. by rewrite H. Qed.

Lemma finishService_more now s :
  customersServed (finishService now s) = customersServed s ∧
  totalItemsProcessed (finishService now s) = totalItemsProcessed s ∧
  totalServiceTime (finishService now s) = totalServiceTime s ∧
  cashierIndex (finishService now s) = cashierIndex s.
Proof. unfold finishService. by destruct (currentCustomer s). Qed.

(** X1.  Work conservation.  In every reachable state an idle Cashier holds
    nobody, neither in service nor in the queue, and its timer is not
    scheduled; a busy Cashier has a customer in service and its timer
    scheduled; and no customer object is held twice. *)
Theorem Cashier_idle_holds_nobody s :
  Cashier_reachable s →
  (isBusy s = false →
   customerQueue s = [] ∧ currentCustomer s = None ∧
   processCustomerTimer s = None) ∧
  (isBusy s = true →
   is_Some (currentCustomer s) ∧ is_Some (processCustomerTimer s)) ∧
  NoDup (Cashier_held s).
Proof.
  intros (Hcur & Htimer & Hidle & Hnd & Hnotin)%Cashier_reachable_inv.
  split_and!.
  - intros Hb. split; [by apply Hidle|]. split.
    + destruct (currentCustomer s) eqn:E; [|done].
      assert (isBusy s = true) by (apply Hcur; by eexists). congruence.
    + destruct (processCustomerTimer s) eqn:E; [|done].
      assert (isBusy s = true) by (apply Htimer; by eexists). congruence.
  - intros Hb. split; [by apply Hcur|by apply Htimer].
  - unfold Cashier_held. destruct (currentCustomer s) as [current|] eqn:E.
    + simpl. apply NoDup_cons. split; [by apply Hnotin|done].
    + done.
Qed.

(** X2.  First come, first served.  In a reachable state, a customer that
    arrives goes behind everybody the Cashier holds, a completion removes
    the customer in service and nobody else, and the next one served is
    the one that waited longest. *)
Theorem Cashier_serves_in_arrival_order now msg s w s' w' :
  Cashier_reachable s →
  Cashier_deliverable now s msg →
  Cashier_handleMessage now msg s w = Ok (s', w') →
  Cashier_held s'
  = match msg with
    | CustomerArrival customer => Cashier_held s ++ [customer.1]
    | SelfMessage => tail (Cashier_held s)
    | OtherMessage => Cashier_held s
    end.
Proof.
  intros (Hcur & Htimer & Hidle & _)%Cashier_reachable_inv Hdel Hok.
  destruct msg as [|customer|].
  - simpl in Hdel.
    assert (isBusy s = true) as Hb by (apply Htimer; by eexists).
    destruct (proj1 Hcur Hb) as [current Hc].
    rewrite Cashier_timer_eq in Hok.
    destruct (finishService_fields now (set_processCustomerTimer None s))
      as (Hf1 & Hf2 & _).
    simpl in Hf2. unfold Cashier_held at 2. rewrite Hc. simpl.
    destruct (customerQueue s) as [|first rest] eqn:Hq.
    + rewrite processNextCustomer_nil in Hok by done.
      injection Hok as <- _. unfold Cashier_held. simpl. by rewrite Hf1.
    + rewrite (processNextCustomer_cons _ _ _ first rest) in Hok by done.
      apply startService_Ok_inv in Hok as (_ & _ & _ & -> & _).
      reflexivity.
  - destruct (isBusy s) eqn:Hb.
    + rewrite Cashier_arrival_busy_eq in Hok by done.
      injection Hok as <- _. unfold Cashier_held. simpl.
      by rewrite fmap_app, app_assoc.
    + rewrite Cashier_arrival_idle_eq in Hok by done.
      rewrite (Hidle eq_refl) in *. simpl in Hok.
      rewrite (processNextCustomer_cons _ _ _ customer []) in Hok by done.
      apply startService_Ok_inv in Hok as (_ & _ & _ & -> & _).
      unfold Cashier_held. simpl. rewrite (Hidle eq_refl).
      destruct (currentCustomer s) eqn:E; [|done].
      assert (false = true) by (apply Hcur; by eexists). done.
  - by injection Hok as <- _.
Qed.


Lemma Cashier_fault `{!SchedulingLaws K} now msg s w f :
  Cashier_reachable s →
  Cashier_handleMessage now msg s w = Err f →
  f = SignedOverflow.
Proof.
  intros (Hcur & Htimer & Hidle & _)%Cashier_reachable_inv Herr.
  destruct msg as [|customer|]; [| |done].
  - rewrite Cashier_timer_eq in Herr.
    destruct (finishService_fields now (set_processCustomerTimer None s))
      as (_ & Hf2 & Hf3 & _).
    destruct (customerQueue (finishService now (set_processCustomerTimer None s)))
      as [|first rest] eqn:Hq.
    + by rewrite processNextCustomer_nil in Herr.
    + rewrite (processNextCustomer_cons _ _ _ first rest) in Herr by done.
      eapply startService_fault; [|done]. simpl. by rewrite Hf3.
  - destruct (isBusy s) eqn:Hb.
    + by rewrite Cashier_arrival_busy_eq in Herr.
    + rewrite Cashier_arrival_idle_eq in Herr by done.
      rewrite (Hidle eq_refl) in Herr. simpl in Herr.
      rewrite (processNextCustomer_cons _ _ _ customer []) in Herr by done.
      eapply startService_fault; [|done]. simpl.
      destruct (processCustomerTimer s) eqn:E; [|done].
      assert (false = true) by (apply Htimer; by eexists). done.
Qed.

(** X4.  In a reachable state the handler of a Cashier can fail in one way
    only, the overflow of an [int] counter: the timer is never scheduled
    while it is pending, and never for a time before the current one,
    since a service time is not negative. *)
Theorem Cashier_fails_only_by_overflow `{!SchedulingLaws K} now msg s w :
  Cashier_reachable s →
  is_Ok (Cashier_handleMessage now msg s w) ∨
  Cashier_handleMessage now msg s w = Err SignedOverflow.
Proof.
  intros Hreach.
  destruct (Cashier_handleMessage now msg s w) as [r|f] eqn:E.
  - left. by eexists.
  - right. f_equal. by eapply Cashier_fault.
Qed.

Lemma foldr_add_acc (l : list Z) (a : Z) :
  foldr Z.add a l = foldr Z.add 0 l + a.
Proof. induction l as [|x l IH]; simpl; lia. Qed.

Lemma queued_items_app s customer :
  foldr Z.add 0
    ((λ c : Customer, numberOfItems c.2) <$> (customerQueue s ++ [customer]))
  = queued_items s + numberOfItems customer.2.
Proof.
  unfold queued_items. rewrite fmap_app, foldr_app. simpl.
  rewrite foldr_add_acc. lia.
Qed.

Lemma Cashier_step_conserves now msg s w s' w' :
  Cashier_handleMessage now msg s w = Ok (s', w') →
  customersServed s' + Z.of_nat (length (customerQueue s'))
  = customersServed s + Z.of_nat (length (customerQueue s))
    + Z.of_nat (length (arrivals [(now, msg)])) ∧
  totalItemsProcessed s' + queued_items s'
  = totalItemsProcessed s + queued_items s
    + foldr Z.add 0
        ((λ c : Customer, numberOfItems c.2) <$> arrivals [(now, msg)]).
Proof.
  intros Hok. destruct msg as [|customer|].
  - rewrite Cashier_timer_eq in Hok.
    destruct (finishService_fields now (set_processCustomerTimer None s))
      as (_ & Hf2 & _).
    destruct (finishService_more now (set_processCustomerTimer None s))
      as (Hm1 & Hm2 & _).
    simpl in Hf2, Hm1, Hm2.
    destruct (customerQueue s) as [|first rest] eqn:Hq.
    + rewrite processNextCustomer_nil in Hok by by rewrite Hf2.
      injection Hok as <- _. unfold queued_items. simpl.
      rewrite Hm1, Hm2, Hq. simpl. lia.
    + rewrite (processNextCustomer_cons _ _ _ first rest) in Hok
        by by rewrite Hf2.
      apply startService_Ok_inv in Hok as (_ & _ & _ & -> & _).
      unfold queued_items. rewrite length_cons, Nat2Z.inj_succ.
      simpl. rewrite Hm1, Hm2, Hq, fmap_cons. cbn [foldr]. lia.
  - destruct (isBusy s) eqn:Hb.
    + rewrite Cashier_arrival_busy_eq in Hok by done.
      injection Hok as <- _. unfold queued_items at 1. simpl.
      rewrite queued_items_app, length_app. simpl. lia.
    + rewrite Cashier_arrival_idle_eq in Hok by done.
      pose proof (queued_items_app s customer) as Happ.
      pose proof (length_app (customerQueue s) [customer]) as Hlen.
      destruct (customerQueue s ++ [customer]) as [|first rest] eqn:Hq.
      { by destruct (customerQueue s). }
      rewrite (processNextCustomer_cons _ _ _ first rest) in Hok by done.
      apply startService_Ok_inv in Hok as (_ & _ & _ & -> & _).
      rewrite fmap_cons in Happ. cbn [foldr] in Happ. simpl in Hlen.
      unfold queued_items at 1. simpl. lia.
  - injection Hok as <- _. simpl. lia.
Qed.

(** X5.  No customer and no item is lost or counted twice.  Over any run of
    events, the customers served plus those in the queue grow by the
    number of customers that arrived, and the items processed plus those
    in the queue by the items that arrived.  (A customer counts as served,
    and its items as processed, from the start of its service.) *)
Theorem Cashier_run_conserves_customers events :
  ∀ s w s' w',
  Cashier_run events s w = Ok (s', w') →
  customersServed s' + Z.of_nat (length (customerQueue s'))
  = customersServed s + Z.of_nat (length (customerQueue s))
    + Z.of_nat (length (arrivals events)) ∧
  totalItemsProcessed s' + queued_items s'
  = totalItemsProcessed s + queued_items s
    + foldr Z.add 0 ((λ c : Customer, numberOfItems c.2) <$> arrivals events).
Proof.
  induction events as [|[now msg] rest IH]; intros s w s' w' Hrun.
  - injection Hrun as <- _. simpl. lia.
  - change (Cashier_handleMessage now msg s w ≫=
              (λ '(s1, w1), Cashier_run rest s1 w1) = Ok (s', w')) in Hrun.
    apply bind_Ok in Hrun as ([s1 w1] & Hstep & Hrun).
    apply Cashier_step_conserves in Hstep as [H1 H2].
    apply IH in Hrun as [H3 H4].
    assert (arrivals ((now, msg) :: rest)
            = arrivals [(now, msg)] ++ arrivals rest) as ->
      by by destruct msg.
    rewrite fmap_app, foldr_app, length_app.
    rewrite foldr_add_acc. lia.
Qed.

Lemma queueLength_samples_app (l1 l2 : list (string * SignalValue)) :
  queueLength_samples (l1 ++ l2)
  = queueLength_samples l1 ++ queueLength_samples l2.
Proof. unfold queueLength_samples. by rewrite filter_app, fmap_app. Qed.

Lemma queueLength_samples_emit v w :
  queueLength_samples (emitted (emit "queueLength" v w))
  = queueLength_samples (emitted w) ++ [v].
Proof. unfold emit. simpl. by rewrite queueLength_samples_app. Qed.

Lemma startService_samples now customer s w s' w' :
  startService now customer s w = Ok (s', w') →
  queueLength_samples (emitted w') = queueLength_samples (emitted w) ∧
  customerQueue s' = customerQueue s.
Proof.
  intros (_ & _ & _ & -> & -> & _)%startService_Ok_inv. split; [|done].
  rewrite !queueLength_samples_app.
  destruct (isBusy s); by rewrite app_nil_r.
Qed.

Lemma Cashier_step_sample now msg s w s' w' :
  last (queueLength_samples (emitted w))
  = Some (SLong (Z.of_nat (length (customerQueue s)))) →
  Cashier_handleMessage now msg s w = Ok (s', w') →
  last (queueLength_samples (emitted w'))
  = Some (SLong (Z.of_nat (length (customerQueue s')))).
Proof.
  intros Hlast Hok. destruct msg as [|customer|].
  - rewrite Cashier_timer_eq in Hok.
    destruct (finishService_fields now (set_processCustomerTimer None s))
      as (_ & Hf2 & _).
    simpl in Hf2.
    destruct (customerQueue s) as [|first rest] eqn:Hq.
    + rewrite processNextCustomer_nil in Hok by by rewrite Hf2.
      by injection Hok as <- <-.
    + rewrite (processNextCustomer_cons _ _ _ first rest) in Hok
        by by rewrite Hf2.
      apply startService_samples in Hok as [-> ->].
      by rewrite queueLength_samples_emit, last_snoc.
  - destruct (isBusy s) eqn:Hb.
    + rewrite Cashier_arrival_busy_eq in Hok by done.
      injection Hok as <- <-.
      by rewrite queueLength_samples_emit, last_snoc.
    + rewrite Cashier_arrival_idle_eq in Hok by done.
      destruct (customerQueue s ++ [customer]) as [|first rest] eqn:Hq.
      { by destruct (customerQueue s). }
      rewrite (processNextCustomer_cons _ _ _ first rest) in Hok by done.
      apply startService_samples in Hok as [-> ->].
      by rewrite queueLength_samples_emit, last_snoc.
  - by injection Hok as <- <-.
Qed.

(** X6.  The [queueLength] signal tells the truth.  After [initialize] and
    any run of events, the last value emitted for [queueLength] is the
    number of customers in the queue, the one in service not counted. *)
Theorem queueLength_sample_is_queue_length events index now0 w0 s' w' :
  Cashier_run events (Cashier_initialize index now0 w0).1
                     (Cashier_initialize index now0 w0).2 = Ok (s', w') →
  ∃ earlier,
    queueLength_samples (emitted w')
    = earlier ++ [SLong (Z.of_nat (length (customerQueue s')))].
Proof.
  assert (∀ s w,
            last (queueLength_samples (emitted w))
            = Some (SLong (Z.of_nat (length (customerQueue s)))) →
            Cashier_run events s w = Ok (s', w') →
            last (queueLength_samples (emitted w'))
            = Some (SLong (Z.of_nat (length (customerQueue s'))))) as Hrun.
  { induction events as [|[now msg] rest IH]; intros s w Hlast Hrun.
    - by injection Hrun as <- <-.
    - change (Cashier_handleMessage now msg s w ≫=
                (λ '(s1, w1), Cashier_run rest s1 w1) = Ok (s', w')) in Hrun.
      apply bind_Ok in Hrun as ([s1 w1] & Hstep & Hrun).
      eapply IH; [|done]. by eapply Cashier_step_sample. }
  intros Hok. apply Hrun in Hok.
  - apply last_Some in Hok as [earlier Hok]. by exists earlier.
  - unfold Cashier_initialize. cbn [fst snd].
    by rewrite queueLength_samples_emit, last_snoc.
Qed.

(** X7.  A customer without items.  When the item count is zero or
    negative the loop makes no draw: the generator is left as it was, the
    service lasts [0.0], the completion is scheduled for the current
    time, and the item count, negative or not, is added to the items
    processed. *)
Theorem startService_without_items `{!SchedulingLaws K} now customer s w :
  numberOfItems customer.2 ≤ 0 →
  processCustomerTimer s = None →
  in_int (customersServed s + 1) →
  in_int (totalItemsProcessed s + numberOfItems customer.2) →
  ∃ s' w',
    startService now customer s w = Ok (s', w') ∧
    rng w' = rng w ∧
    processCustomerTimer s'
    = Some (simtime_add now (simtime_of_double (dlit 0))) ∧
    totalServiceTime s' = dadd (totalServiceTime s) (dlit 0) ∧
    totalItemsProcessed s'
    = totalItemsProcessed s + numberOfItems customer.2 ∧
    ("serviceTime", SDouble (dlit 0)) ∈ emitted w'.
Proof.
  intros Hitems Ht Hs Hp.
  destruct (startService_Ok now customer s w Ht Hs Hp) as [[s' w'] Hok].
  exists s', w'. split; [done|].
  apply startService_Ok_inv in Hok as (_ & _ & _ & -> & -> & ->).
  replace (Z.to_nat (numberOfItems customer.2)) with 0%nat by lia. simpl.
  split_and!; try done.
  rewrite !elem_of_app. right. right. rewrite !elem_of_cons. right. by left.
Qed.

End Cashier_more.

(** ** More on the Shop *)

Section Shop_more.
Context {K : Kernel}.
Implicit Types (s : Shop) (w : World K).

Lemma sent_ids_length w : length (sent_ids w) = length (sent w).
Proof. unfold sent_ids. by rewrite length_fmap. Qed.

(** X14.  The Shop from [initialize] to [finish], for a mean arrival
    interval above zero, so that no gap leads to a time the kernel
    refuses.  After [n] arrival events, [n] below [INT_MAX], exactly [n]
    customers have been sent, their ids are pairwise distinct, the
    counter is one ahead of the number generated, and [finish] records
    that number as [customersGenerated] and leaves no arrival
    scheduled. *)
Theorem Shop_finish_reports_customers_sent `{!SchedulingLaws K}
    (n : nat) par_arrivalInterval now0 w :
  Z.of_nat n < INT_MAX →
  dgt par_arrivalInterval (dlit 0) = true →
  ∃ s0 s' w',
    Shop_initialize par_arrivalInterval now0 = Ok s0 ∧
    Shop_run n s0 w = Ok (s', w') ∧
    length (sent w') = (length (sent w) + n)%nat ∧
    NoDup (drop (length (sent w)) (sent_ids w')) ∧
    customerCounter s' = customersGenerated s' + 1 ∧
    scalar "customersGenerated" (Shop_finish s').2
    = Some (double_of_int (Z.of_nat n)) ∧
    generateCustomerTimer (Shop_finish s').1 = None.
Proof.
  intros Hn Hmean. eexists.
  destruct (Shop_run_spec n
    {| generateCustomerTimer :=
         Some (simtime_add now0 (simtime_of_double (dlit 0.1)));
       customerCounter := 1;
       arrivalInterval := par_arrivalInterval;
       customersGenerated := 0 |} w) as (s' & w' & Hrun & _ & Hc & Hg & Hids);
    simpl; [by eexists|done|unfold INT_MAX in *; lia..|].
  simpl in Hc, Hg, Hids.
  exists s', w'. split; [apply Shop_initialize_Ok|]. split; [done|]. split_and!.
  - rewrite <- !sent_ids_length, Hids, length_app, length_fmap, length_seq.
    done.
  - rewrite <- sent_ids_length, Hids, drop_app_length.
    apply NoDup_fmap_2; [|apply NoDup_seq].
    intros k1 k2. lia.
  - lia.
  - simpl. by rewrite Hg.
  - done.
Qed.

End Shop_more.

(** ** The model at work on the exact kernel *)

Lemma exact_kernel_laws : KernelLaws exact_kernel.
Proof.
  split; simpl.
  - intros a b _ _. apply bool_decide_ext. symmetry. apply Z2Qc_inj_lt.
  - intros a _ Ha. rewrite Z2Qc_inj_1. unfold Qcdiv. apply Qcmult_inv_r.
    rewrite <- Z2Qc_inj_0. by intros ?%Z2Qc_inj.
  - intros x. rewrite Z2Qc_inj_1. apply Qcmult_1_l.
  - intros a b g Hab. unfold exact_intuniform. simpl.
    pose proof (Z.mod_pos_bound g (b - a + 1) ltac:(lia)). lia.
Qed.

Lemma Q2Qc_nonneg (q : Q) : Qle 0 q → (Q2Qc 0 <= Q2Qc q)%Qc.
Proof.
  intros H. unfold Qcle. simpl. rewrite (Qred_correct q). exact H.
Qed.

Lemma exact_nonneg (x : Qc) :
  @dgt exact_kernel (Q2Qc 0) x = false ↔ (Q2Qc 0 <= x)%Qc.
Proof.
  simpl. rewrite bool_decide_eq_false. split.
  - apply Qcnot_lt_le.
  - apply Qcle_not_lt.
Qed.

#[local] Instance exact_scheduling_laws : SchedulingLaws exact_kernel.
Proof.
  split.
  - intros p q H. simpl. apply bool_decide_eq_false. intros Hlt.
    unfold Qclt in Hlt. simpl in Hlt. rewrite !Qred_correct in Hlt.
    by apply Qle_not_lt in H.
  - intros a b. change (@dlit exact_kernel 0) with (Q2Qc 0).
    rewrite !exact_nonneg. apply Qcplus_nonneg_nonneg.
  - intros a b g. change (@dlit exact_kernel 0) with (Q2Qc 0).
    rewrite !exact_nonneg. simpl. rewrite bool_decide_eq_false.
    intros Ha Hab%Qcnot_lt_le. apply Qcplus_nonneg_nonneg; [done|].
    apply Qcmult_nonneg_nonneg.
    + apply Qcle_minus_iff in Hab. exact Hab.
    + apply Q2Qc_nonneg. unfold Qle. simpl.
      pose proof (Z.mod_pos_bound g 4 ltac:(lia)). lia.
  - intros mean g. change (@dlit exact_kernel 0) with (Q2Qc 0).
    rewrite exact_nonneg. simpl. rewrite bool_decide_eq_true.
    intros Hmean%Qclt_le_weak. apply Qcmult_nonneg_nonneg; [done|].
    apply Q2Qc_nonneg. unfold Qle. simpl.
    pose proof (Z.mod_pos_bound g 3 ltac:(lia)). lia.
  - intros now d. change (@dlit exact_kernel 0) with (Q2Qc 0).
    rewrite exact_nonneg. simpl. rewrite bool_decide_eq_false.
    intros Hd. apply Qcle_not_lt.
    apply (Qcplus_le_mono_l _ _ now) in Hd. by rewrite Qcplus_0_r in Hd.
Qed.

Lemma in_int_small z : -1000 ≤ z ≤ 1000 → in_int z.
Proof. unfold in_int, INT_MIN, INT_MAX. lia. Qed.

Lemma round_robin_kth_decision_witness :
  1 ≤ 3 ∧
  ∃ b' w',
    route_all (replicate 7 (exact_customer 9%positive 1 3 (Q2Qc 0)))
              (Balancer_initialize 0 3) (exact_world 0) = Ok (b', w') ∧
    decisions w' = [0; 1; 2; 0; 1; 2; 0].
Proof.
  split; [lia|].
  destruct (round_robin_kth_decision (K:=exact_kernel) 3
              (replicate 7 (exact_customer 9%positive 1 3 (Q2Qc 0))) (exact_world 0)
              ltac:(lia)) as (_ & _ & _ & H).
  exact (H eq_refl eq_refl).
Defined.

Lemma shortest_queue_first_minimum_witness :
  strategy (Balancer_initialize 1 3) = SHORTEST_QUEUE ∧
  ∃ b' w',
    route_all [exact_customer 8%positive 1 3 (Q2Qc 0);
               exact_customer 9%positive 2 5 (Q2Qc 0)]
              (Balancer_initialize 1 3) (exact_world 0) = Ok (b', w') ∧
    decisions w' = [0; 1].
Proof.
  split; [reflexivity|].
  destruct (shortest_queue_first_minimum (K:=exact_kernel)
              (Balancer_initialize 1 3) (exact_world 0)
              (exact_customer 8%positive 1 3 (Q2Qc 0)) eq_refl) as (_ & _ & H).
  apply (H 3%nat 0 (exact_customer 9%positive 2 5 (Q2Qc 0)));
    try reflexivity; try (apply in_int_small; simpl; lia);
    try (unfold INT_MAX; simpl; lia).
Defined.

Lemma balancing_efficiency_scalar_witness :
  cashierAssignments exact_balancer ≠ [] ∧
  numCashiers exact_balancer
    = Z.of_nat (length (cashierAssignments exact_balancer)) ∧
  Forall in_int (cashierAssignments exact_balancer) ∧
  ∃ scalars e mn mx,
    Balancer_finish (K:=exact_kernel) exact_balancer = Ok scalars ∧
    scalar "balancingEfficiency" scalars = Some e ∧
    minimum (cashierAssignments exact_balancer) mn ∧
    maximum (cashierAssignments exact_balancer) mx ∧
    (0 < mx →
     e = dmul (ddiv (double_of_int mn) (double_of_int mx)) (double_of_int 100)).
Proof.
  assert (Forall in_int (cashierAssignments exact_balancer)) as Hint.
  { repeat constructor; apply in_int_small; lia. }
  split; [done|]. split; [reflexivity|]. split; [exact Hint|].
  destruct (balancing_efficiency_scalar (K:=exact_kernel)
              (KernelLaws0:=exact_kernel_laws) exact_balancer
              ltac:(done) eq_refl Hint)
    as (scalars & e & mn & mx & H1 & H2 & H3 & H4 & H5 & _).
  by exists scalars, e, mn, mx.
Defined.

Lemma exact_routing_end : exact_routing = Ok exact_routed.
Proof. reflexivity. Qed.

Lemma exact_routed_reachable : Balancer_reachable (K:=exact_kernel) exact_routed.1.
Proof.
  apply (route_all_reachable (K:=exact_kernel) _ _ _ _ exact_routed.2
           (Balancer_reachable_init (K:=exact_kernel) 1 3) exact_routing_end).
Qed.

Lemma tracked_lengths_are_assignment_counts_witness :
  exact_routing = Ok exact_routed ∧
  Balancer_reachable (K:=exact_kernel) exact_routed.1 ∧
  strategy exact_routed.1 = SHORTEST_QUEUE ∧
  cashierAssignments exact_routed.1 = [1; 1; 0] ∧
  cashierQueueLengths exact_routed.1 = cashierAssignments exact_routed.1 ∧
  foldr Z.add 0 (cashierAssignments exact_routed.1)
  = customersForwarded exact_routed.1 ∧
  ∃ i x,
    selectCashier (K:=exact_kernel) exact_routed.1 (exact_world 0)
    = Ok (Z.of_nat i, exact_routed.1, exact_world 0) ∧
    first_minimum (cashierAssignments exact_routed.1) i x.
Proof.
  destruct (proj2 (tracked_lengths_are_assignment_counts (K:=exact_kernel))
              exact_routed.1 exact_routed_reachable)
    as (Heq & Hsum & _ & Hsq).
  destruct (Hsq eq_refl (exact_world 0)) as (i & Hsel & Hmin).
  destruct (Hmin ltac:(discriminate)) as [x Hx].
  split; [exact exact_routing_end|]. split; [exact exact_routed_reachable|].
  split; [reflexivity|]. split; [reflexivity|].
  split; [exact Heq|]. split; [exact Hsum|].
  exists i, x. split; [exact Hsel|exact Hx].
Defined.

Lemma startService_begins_service_witness :
  let s0 := (Cashier_initialize (K:=exact_kernel) 0 (Q2Qc 0) (exact_world 0)).1 in
  let customer := exact_customer 1%positive 1 2 (Q2Qc 1) in
  processCustomerTimer s0 = None ∧
  in_int (customersServed s0 + 1) ∧
  in_int (totalItemsProcessed s0 + numberOfItems customer.2) ∧
  ∃ s' w',
    startService (K:=exact_kernel) (Q2Qc 3) customer s0 (exact_world 0)
    = Ok (s', w') ∧
    customersServed s' = 1 ∧
    totalItemsProcessed s' = 2 ∧
    this (totalServiceTime s' : Qc) = (11 # 8)%Q ∧
    this <$> processCustomerTimer s' = Some (35 # 8)%Q ∧
    (λ c : @Customer exact_kernel, this (totalWaitingTime c.2 : Qc))
      <$> currentCustomer s' = Some (2 # 1)%Q.
Proof.
  intros s0 customer.
  assert (in_int (customersServed s0 + 1)) as H1 by (apply in_int_small; simpl; lia).
  assert (in_int (totalItemsProcessed s0 + numberOfItems customer.2)) as H2
    by (apply in_int_small; simpl; lia).
  split; [reflexivity|]. split; [exact H1|]. split; [exact H2|].
  destruct (startService_begins_service (K:=exact_kernel) (Q2Qc 3) customer s0
              (exact_world 0) eq_refl H1 H2)
    as (s' & w' & Hok & _ & _ & _ & Hcur & _ & _ & Htimer & Hserved & Htime & Hitems).
  exists s', w'. split; [exact Hok|].
  split; [exact Hserved|]. split; [exact Hitems|].
  rewrite Htimer, Hcur, Htime. split_and!; reflexivity.
Defined.

Lemma Cashier_busy_iff_in_service_witness :
  let s0 := (Cashier_initialize (K:=exact_kernel) 0 (Q2Qc 0) (exact_world 0)).1 in
  let customer := exact_customer 1%positive 1 2 (Q2Qc 1) in
  ∃ s1 w1,
    Cashier_handleMessage (K:=exact_kernel) (Q2Qc 1) (CustomerArrival customer)
      s0 (exact_world 0) = Ok (s1, w1) ∧
    Cashier_reachable s1 ∧
    (isBusy s1 = true ↔ is_Some (currentCustomer s1)) ∧
    (∀ current, currentCustomer s1 = Some current →
                (current.1 ∉ (customerQueue s1).*1)).
Proof.
  intros s0 customer.
  destruct (Cashier_arrival_idle_Ok (K:=exact_kernel) (Q2Qc 1) customer s0
              (exact_world 0) eq_refl eq_refl eq_refl)
    as [[s1 w1] H1]; [apply in_int_small; simpl; lia..|].
  assert (Cashier_reachable s1) as Hreach.
  { eapply Cashier_reachable_step;
      [apply (Cashier_reachable_init (K:=exact_kernel) 0 (Q2Qc 0) (exact_world 0))
      | |exact H1].
    split; [apply not_elem_of_nil|discriminate]. }
  exists s1, w1. split; [exact H1|]. split; [exact Hreach|].
  exact (proj2 (Cashier_busy_iff_in_service (K:=exact_kernel)) s1 Hreach).
Defined.

Lemma idle_interval_is_accumulated_witness :
  let s0 := (Cashier_initialize (K:=exact_kernel) 0 (Q2Qc 0) (exact_world 0)).1 in
  let customer := exact_customer 1%positive 1 2 (Q2Qc 3) in
  became_idle_at (K:=exact_kernel) (Q2Qc 0) s0 ∧
  (∃ s2 w2,
     Cashier_handleMessage (K:=exact_kernel) (Q2Qc 3) (CustomerArrival customer)
       s0 (exact_world 0) = Ok (s2, w2) ∧
     isBusy s2 = true ∧
     this (totalIdleTime s2 : Qc) = (3 # 1)%Q) ∧
  this (totalIdleTime (Cashier_finish (K:=exact_kernel) (Q2Qc 4) s0).1) = (4 # 1)%Q.
Proof.
  intros s0 customer.
  assert (became_idle_at (K:=exact_kernel) (Q2Qc 0) s0) as H.
  { left. by exists 0, (exact_world 0). }
  split; [exact H|].
  destruct (idle_interval_is_accumulated (K:=exact_kernel) (Q2Qc 0) s0 H)
    as (_ & Hok & Harrival & Hfin).
  split.
  - destruct (Hok (Q2Qc 3) customer (exact_world 0)
                ltac:(apply in_int_small; simpl; lia)
                ltac:(apply in_int_small; simpl; lia)) as [[s2 w2] H2].
    destruct (Harrival _ _ _ _ _ H2) as [Hbusy Hidle].
    exists s2, w2. split; [exact H2|]. split; [exact Hbusy|].
    rewrite Hidle. reflexivity.
  - destruct (Hfin (Q2Qc 4)) as [-> _]. reflexivity.
Defined.

Lemma Shop_arrival_event_witness :
  Z.of_nat 3 < INT_MAX ∧
  @dgt exact_kernel (Q2Qc 2) (Q2Qc 0) = true ∧
  Shop_initialize (K:=exact_kernel) (Q2Qc 2) (Q2Qc 0) = Ok exact_shop_open ∧
  (∃ s1 w1,
     Shop_handleMessage (K:=exact_kernel) (Q2Qc 0.1) SelfMessage
       exact_shop_open (exact_world 0) = Ok (s1, w1) ∧
     customerCounter s1 = 2 ∧
     this <$> generateCustomerTimer s1 = Some (21 # 10)%Q) ∧
  ∃ s0 s' w',
    Shop_initialize (K:=exact_kernel) (Q2Qc 2) (Q2Qc 0) = Ok s0 ∧
    Shop_run 3 s0 (exact_world 0) = Ok (s', w') ∧
    is_Some (generateCustomerTimer s') ∧
    sent_ids w' = [1; 2; 3].
Proof.
  assert (Z.of_nat 3 < INT_MAX) as H by (unfold INT_MAX; simpl; lia).
  assert (@dgt exact_kernel (Q2Qc 2) (Q2Qc 0) = true) as Hmean by reflexivity.
  pose proof (Shop_arrival_event (K:=exact_kernel)
                (KernelLaws0:=exact_kernel_laws)) as (Hevent & _ & Hrun).
  split; [exact H|]. split; [exact Hmean|]. split; [reflexivity|]. split.
  - destruct (Hevent (Q2Qc 0.1) exact_shop_open (exact_world 0)
                ltac:(apply in_int_small; simpl; lia)
                ltac:(apply in_int_small; simpl; lia) Hmean)
      as (_ & _ & s1 & w1 & Hok & _ & _ & Hc & _ & Htimer).
    exists s1, w1. split; [exact Hok|]. split; [exact Hc|].
    rewrite Htimer. reflexivity.
  - destruct (Hrun 3%nat (Q2Qc 2) (Q2Qc 0) (exact_world 0) H Hmean)
      as (s0 & s' & w' & H0 & Hrun' & Ht & _ & Hids).
    by exists s0, s', w'.
Defined.

Lemma Shop_initialize_accepts_any_mean_witness :
  ∃ s0,
    Shop_initialize (K:=exact_kernel) (Q2Qc (-1)) (Q2Qc 0) = Ok s0 ∧
    this (arrivalInterval s0 : Qc) = (-1 # 1)%Q ∧
    Shop_handleMessage (K:=exact_kernel) (Q2Qc 0.1) SelfMessage s0 (exact_world 0)
    = Err ScheduleInPast.
Proof.
  destruct (Shop_initialize_accepts_any_mean (K:=exact_kernel)
              (Q2Qc (-1)) (Q2Qc 0)) as (s0 & H0 & Hmean & _ & _ & _ & Hfirst).
  exists s0. split; [exact H0|]. split; [by rewrite Hmean|].
  apply (proj1 (Hfirst (Q2Qc 0.1) (exact_world 0))). reflexivity.
Defined.

(** C5 as written does not hold: a Cashier that served for 11/8 time units
    of a run of 4 reports a utilization of 275/8 (per cent), not the
    ratio 11/32; its idle rate is 525/8, not 21/32. *)
Lemma utilization_is_a_percentage :
  exact_cashier_run = Ok exact_cashier_end ∧
  let s := exact_cashier_end.1 in
  let now : @simtime_t exact_kernel := Q2Qc 4 in
  let elapsed : Qc := @SIMTIME_DBL exact_kernel now in
  let end_of_run := Cashier_finish (K:=exact_kernel) now s in
  let idle : Qc := @SIMTIME_DBL exact_kernel (totalIdleTime end_of_run.1) in
  scalar "utilizationRate" end_of_run.2
    ≠ Some (@ddiv exact_kernel (totalServiceTime s) elapsed) ∧
  scalar_value "utilizationRate" end_of_run.2 = Some (275 # 8)%Q ∧
  this (@ddiv exact_kernel (totalServiceTime s) elapsed) = (11 # 32)%Q ∧
  scalar "idleRate" end_of_run.2 ≠ Some (@ddiv exact_kernel idle elapsed) ∧
  scalar_value "idleRate" end_of_run.2 = Some (525 # 8)%Q ∧
  this (@ddiv exact_kernel idle elapsed) = (21 # 32)%Q.
Proof.
  split; [reflexivity|].
  split_and!; try reflexivity.
  - intros H. apply (f_equal (fmap this)) in H. vm_compute in H. discriminate H.
  - intros H. apply (f_equal (fmap this)) in H. vm_compute in H. discriminate H.
Qed.

(** C6 as written does not hold: [initialize] accepts the mean -1 and
    schedules the first arrival; the first arrival event, at time 1/10,
    draws the gap with that mean, the gap is -1, and the kernel refuses
    the time -9/10: the failure comes at the draw, not at
    initialization. *)
Lemma nonpositive_mean_is_accepted :
  (Q2Qc (-1) <= 0)%Qc ∧
  Shop_initialize (K:=exact_kernel) (Q2Qc (-1)) (Q2Qc 0) = Ok exact_shop_started ∧
  this (arrivalInterval exact_shop_started) = (-1 # 1)%Q ∧
  this <$> generateCustomerTimer exact_shop_started = Some (1 # 10)%Q ∧
  this (exact_exponential (arrivalInterval exact_shop_started)
          (exact_intuniform 1 25 0).2).1 = (-1 # 1)%Q ∧
  exact_shop_first_arrival = Err ScheduleInPast.
Proof.
  split; [by vm_compute|].
  split_and!; reflexivity.
Qed.

(** *** Further runs *)

Lemma exact_first_arrival :
  let s0 := (Cashier_initialize (K:=exact_kernel) 0 (Q2Qc 0) (exact_world 0)).1 in
  let customer := exact_customer 1%positive 1 2 (Q2Qc 1) in
  ∃ s1 w1 due,
    Cashier_handleMessage (K:=exact_kernel) (Q2Qc 1) (CustomerArrival customer)
      s0 (exact_world 0) = Ok (s1, w1) ∧
    Cashier_reachable s0 ∧
    Cashier_deliverable (K:=exact_kernel) (Q2Qc 1) s0 (CustomerArrival customer) ∧
    Cashier_reachable s1 ∧
    customerQueue s1 = [] ∧
    processCustomerTimer s1 = Some due.
Proof.
  intros s0 customer.
  destruct (Cashier_arrival_idle_Ok (K:=exact_kernel) (Q2Qc 1) customer s0
              (exact_world 0) eq_refl eq_refl eq_refl)
    as [[s1 w1] H1]; [apply in_int_small; simpl; lia..|].
  assert (Cashier_reachable s0) as Hreach0
    by apply (Cashier_reachable_init (K:=exact_kernel) 0 (Q2Qc 0) (exact_world 0)).
  assert (Cashier_deliverable (K:=exact_kernel) (Q2Qc 1) s0
            (CustomerArrival customer)) as Hdel.
  { split; [apply not_elem_of_nil|discriminate]. }
  assert (Cashier_reachable s1) as Hreach1
    by (eapply Cashier_reachable_step; [exact Hreach0|exact Hdel|exact H1]).
  pose proof H1 as H1'.
  rewrite Cashier_arrival_idle_eq in H1' by done.
  rewrite (processNextCustomer_cons _ _ _ customer []) in H1' by done.
  apply startService_inv in H1' as (_ & _ & _ & Hq & _ & _ & [due Hdue] & _).
  exists s1, w1, due. split_and!; done.
Qed.

(** A Cashier alone from time 0.  The first customer arrives at time 1
    and is served at once ([s1]); then either a second customer arrives
    at time 3/2 and waits ([s2]), or the service of the first ends when
    its timer is due and leaves the Cashier idle ([s3]). *)
Lemma exact_two_customers :
  let s0 := (Cashier_initialize (K:=exact_kernel) 0 (Q2Qc 0) (exact_world 0)).1 in
  let first := exact_customer 1%positive 1 2 (Q2Qc 1) in
  let second := exact_customer 2%positive 2 3 (Q2Qc 1.5) in
  ∃ s1 w1 due s2 w2 s3 w3,
    Cashier_handleMessage (K:=exact_kernel) (Q2Qc 1) (CustomerArrival first)
      s0 (exact_world 0) = Ok (s1, w1) ∧
    Cashier_handleMessage (K:=exact_kernel) (Q2Qc 1.5) (CustomerArrival second)
      s1 w1 = Ok (s2, w2) ∧
    Cashier_reachable s2 ∧
    isBusy s2 = true ∧
    Cashier_held s2 = [1%positive; 2%positive] ∧
    processCustomerTimer s1 = Some due ∧
    Cashier_handleMessage (K:=exact_kernel) due SelfMessage s1 w1 = Ok (s3, w3) ∧
    Cashier_reachable s3 ∧
    isBusy s3 = false ∧
    processCustomerTimer s3 = None ∧
    customersServed s3 = 1 ∧
    totalItemsProcessed s3 = 2.
Proof.
  intros s0 first second.
  destruct exact_first_arrival as (s1 & w1 & due & H1 & _ & _ & Hreach1 & Hq1 & Hdue).
  fold s0 first in H1.
  pose proof H1 as H1'.
  rewrite Cashier_arrival_idle_eq in H1' by done.
  rewrite (processNextCustomer_cons _ _ _ first []) in H1' by done.
  pose proof (startService_inv _ _ _ _ _ _ H1')
    as (_ & _ & _ & _ & Hb1 & (current & Hcur & Haddr) & _).
  apply startService_Ok_inv in H1' as (_ & _ & _ & Hs1 & _).
  pose proof (f_equal customersServed Hs1) as Hserved.
  pose proof (f_equal totalItemsProcessed Hs1) as Hitems.
  unfold s0, first, exact_customer in Hserved, Hitems.
  cbn [customersServed totalItemsProcessed set_customerQueue
       Cashier_initialize fst snd numberOfItems] in Hserved, Hitems.
  (* the second customer arrives while the first is served *)
  pose proof (Cashier_arrival_busy_eq (Q2Qc 1.5 : @simtime_t exact_kernel)
                second s1 w1 Hb1) as H2.
  assert (Cashier_deliverable (K:=exact_kernel) (Q2Qc 1.5) s1
            (CustomerArrival second)) as Hdel2.
  { split.
    - rewrite Hq1. apply not_elem_of_nil.
    - intros current' Hcur'. rewrite Hcur in Hcur'. injection Hcur' as <-.
      rewrite Haddr. discriminate. }
  (* or the service of the first ends *)
  assert (Cashier_handleMessage (K:=exact_kernel) due SelfMessage s1 w1
          = Ok ({| customerQueue := [];
                   processCustomerTimer := None;
                   isBusy := false;
                   cashierIndex := cashierIndex s1;
                   currentCustomer := None;
                   lastServiceEndTime := due;
                   totalIdleTime := totalIdleTime s1;
                   customersServed := customersServed s1;
                   totalServiceTime := totalServiceTime s1;
                   totalItemsProcessed := totalItemsProcessed s1 |}, w1)) as H3.
  { rewrite Cashier_timer_eq.
    destruct (finishService_fields due (set_processCustomerTimer None s1))
      as (Hf1 & Hf2 & Hf3 & _ & Hf5).
    destruct (finishService_more due (set_processCustomerTimer None s1))
      as (Hm1 & Hm2 & Hm3 & Hm4).
    rewrite processNextCustomer_nil by (by rewrite Hf2).
    by rewrite Hf1, Hf3, Hf5, Hm1, Hm2, Hm3, Hm4. }
  eexists s1, w1, due, _, _, _, _.
  split; [exact H1|]. split; [exact H2|].
  split; [by eapply Cashier_reachable_step|].
  split; [exact Hb1|]. split.
  { unfold Cashier_held. cbn [currentCustomer customerQueue set_customerQueue].
    rewrite Hcur, Hq1, Haddr. reflexivity. }
  split; [exact Hdue|]. split; [exact H3|].
  split; [by eapply (Cashier_reachable_step s1 w1 due SelfMessage)|].
  split; [reflexivity|]. split; [reflexivity|].
  cbn [customersServed totalItemsProcessed]. rewrite Hserved, Hitems. done.
Qed.

Lemma Cashier_idle_holds_nobody_witness :
  ∃ s2 s3,
    (* busy: one customer in service, one in the queue *)
    Cashier_reachable (K:=exact_kernel) s2 ∧
    isBusy s2 = true ∧
    Cashier_held s2 = [1%positive; 2%positive] ∧
    is_Some (currentCustomer s2) ∧
    is_Some (processCustomerTimer s2) ∧
    NoDup (Cashier_held s2) ∧
    (* idle again after a service *)
    Cashier_reachable (K:=exact_kernel) s3 ∧
    isBusy s3 = false ∧
    customersServed s3 = 1 ∧
    customerQueue s3 = [] ∧
    currentCustomer s3 = None ∧
    processCustomerTimer s3 = None.
Proof.
  destruct exact_two_customers
    as (s1 & w1 & due & s2 & w2 & s3 & w3 & _ & _ & Hreach2 & Hb2 & Hheld
        & _ & _ & Hreach3 & Hb3 & _ & Hserved & _).
  destruct (Cashier_idle_holds_nobody (K:=exact_kernel) s2 Hreach2)
    as (_ & Hbusy & Hnd).
  destruct (Cashier_idle_holds_nobody (K:=exact_kernel) s3 Hreach3)
    as (Hidle & _ & _).
  destruct (Hbusy Hb2) as [Hcur Htimer].
  destruct (Hidle Hb3) as (Hq & Hnone & Hnot).
  exists s2, s3.
  split; [exact Hreach2|]. split; [exact Hb2|]. split; [exact Hheld|].
  split; [exact Hcur|]. split; [exact Htimer|]. split; [exact Hnd|].
  split; [exact Hreach3|]. split; [exact Hb3|]. split; [exact Hserved|].
  split; [exact Hq|]. split; [exact Hnone|exact Hnot].
Defined.

Lemma Cashier_serves_in_arrival_order_witness :
  let s0 := (Cashier_initialize (K:=exact_kernel) 0 (Q2Qc 0) (exact_world 0)).1 in
  let customer := exact_customer 1%positive 1 2 (Q2Qc 1) in
  ∃ s1 w1,
    Cashier_handleMessage (K:=exact_kernel) (Q2Qc 1) (CustomerArrival customer)
      s0 (exact_world 0) = Ok (s1, w1) ∧
    Cashier_held s1 = [1%positive].
Proof.
  intros s0 customer.
  destruct exact_first_arrival as (s1 & w1 & due & H1 & Hreach0 & Hdel & _).
  exists s1, w1. split; [exact H1|].
  exact (Cashier_serves_in_arrival_order (K:=exact_kernel) _ _ _ _ _ _
           Hreach0 Hdel H1).
Defined.


Lemma Cashier_fails_only_by_overflow_witness :
  let second := exact_customer 2%positive 2 3 (Q2Qc 1.5) in
  ∃ s3 w3,
    (* idle again after the service of a first customer *)
    Cashier_reachable (K:=exact_kernel) s3 ∧
    isBusy s3 = false ∧
    customersServed s3 = 1 ∧
    processCustomerTimer s3 = None ∧
    in_int (customersServed s3 + 1) ∧
    in_int (totalItemsProcessed s3 + numberOfItems second.2) ∧
    (* the arrival of a second one starts a service and sets the timer *)
    ∃ s4 w4,
      Cashier_handleMessage (K:=exact_kernel) (Q2Qc 4) (CustomerArrival second)
        s3 w3 = Ok (s4, w4) ∧
      customersServed s4 = 2 ∧
      is_Some (processCustomerTimer s4).
Proof.
  intros second.
  destruct exact_two_customers
    as (s1 & w1 & due & s2 & w2 & s3 & w3 & _ & _ & _ & _ & _
        & _ & _ & Hreach3 & Hb3 & Htimer3 & Hserved & Hitems).
  assert (in_int (customersServed s3 + 1)) as Hin1
    by (rewrite Hserved; apply in_int_small; lia).
  assert (in_int (totalItemsProcessed s3 + numberOfItems second.2)) as Hin2
    by (rewrite Hitems; apply in_int_small; simpl; lia).
  exists s3, w3.
  split; [exact Hreach3|]. split; [exact Hb3|]. split; [exact Hserved|].
  split; [exact Htimer3|]. split; [exact Hin1|]. split; [exact Hin2|].
  destruct (Cashier_fails_only_by_overflow (K:=exact_kernel) (Q2Qc 4)
              (CustomerArrival second) s3 w3 Hreach3) as [[[s4 w4] Hok]|Herr].
  - exists s4, w4. split; [exact Hok|].
    pose proof Hok as Hok'.
    rewrite Cashier_arrival_idle_eq in Hok' by exact Hb3.
    destruct (Cashier_reachable_inv s3 Hreach3) as (_ & _ & Hidle & _).
    rewrite (processNextCustomer_cons _ _ _ second []) in Hok'
      by (cbn [customerQueue set_customerQueue]; by rewrite (Hidle Hb3)).
    pose proof (startService_inv _ _ _ _ _ _ Hok')
      as (_ & _ & _ & _ & _ & _ & Hsome & _).
    apply startService_Ok_inv in Hok' as (_ & _ & _ & Hs4 & _).
    split; [|exact Hsome].
    rewrite Hs4. cbn [customersServed set_customerQueue]. by rewrite Hserved.
  - exfalso.
    rewrite Cashier_arrival_idle_eq in Herr by exact Hb3.
    destruct (Cashier_reachable_inv s3 Hreach3) as (_ & _ & Hidle & _).
    rewrite (processNextCustomer_cons _ _ _ second []) in Herr
      by (cbn [customerQueue set_customerQueue]; by rewrite (Hidle Hb3)).
    rewrite startService_eq in Herr.
    cbn [customersServed totalItemsProcessed set_customerQueue] in Herr.
    rewrite !int_add_Ok in Herr by assumption.
    rewrite bind_Ok_l in Herr. cbv beta in Herr. rewrite bind_Ok_l in Herr.
    cbv beta in Herr.
    cbn [processCustomerTimer set_customerQueue] in Herr.
    rewrite Htimer3, scheduleAt_service in Herr. discriminate Herr.
Defined.

Lemma exact_events_run_end : exact_events_run = Ok exact_events_end.
Proof. reflexivity. Qed.

Lemma Cashier_run_conserves_customers_witness :
  exact_events_run = Ok exact_events_end ∧
  customersServed exact_events_end.1
  + Z.of_nat (length (customerQueue exact_events_end.1)) = 2 ∧
  totalItemsProcessed exact_events_end.1 + queued_items exact_events_end.1 = 5.
Proof.
  split; [exact exact_events_run_end|].
  exact (Cashier_run_conserves_customers (K:=exact_kernel) exact_events
           _ _ _ _ exact_events_run_end).
Defined.

Lemma queueLength_sample_is_queue_length_witness :
  exact_events_run = Ok exact_events_end ∧
  ∃ earlier,
    queueLength_samples (emitted exact_events_end.2)
    = earlier ++ [SLong (Z.of_nat (length (customerQueue exact_events_end.1)))].
Proof.
  split; [exact exact_events_run_end|].
  exact (queueLength_sample_is_queue_length (K:=exact_kernel) exact_events
           0 (Q2Qc 0) (exact_world 0) _ _ exact_events_run_end).
Defined.

Lemma startService_without_items_witness :
  let s0 := (Cashier_initialize (K:=exact_kernel) 0 (Q2Qc 0) (exact_world 0)).1 in
  let customer := exact_customer 1%positive 1 0 (Q2Qc 1) in
  numberOfItems customer.2 ≤ 0 ∧
  ∃ s' w',
    startService (K:=exact_kernel) (Q2Qc 3) customer s0 (exact_world 5)
    = Ok (s', w') ∧
    rng w' = 5 ∧
    this <$> processCustomerTimer s' = Some (3 # 1)%Q.
Proof.
  intros s0 customer.
  assert (numberOfItems customer.2 ≤ 0) as Hitems by (simpl; lia).
  split; [exact Hitems|].
  destruct (startService_without_items (K:=exact_kernel) (Q2Qc 3) customer s0
              (exact_world 5) Hitems eq_refl
              ltac:(apply in_int_small; simpl; lia)
              ltac:(apply in_int_small; simpl; lia))
    as (s' & w' & Hok & Hrng & Htimer & _).
  exists s', w'. split; [exact Hok|]. split; [exact Hrng|].
  rewrite Htimer. reflexivity.
Defined.

Lemma Balancer_fails_only_by_overflow_witness :
  Balancer_reachable (K:=exact_kernel) (Balancer_initialize 2 3) ∧
  1 ≤ numCashiers (Balancer_initialize 2 3) ∧
  named (strategy (Balancer_initialize 2 3)) ∧
  ∀ i b1 w1,
    selectCashier (K:=exact_kernel) (Balancer_initialize 2 3) (exact_world 7)
    = Ok (i, b1, w1) →
    0 ≤ i < 3.
Proof.
  assert (Balancer_reachable (K:=exact_kernel) (Balancer_initialize 2 3)) as H
    by constructor.
  assert (1 ≤ numCashiers (Balancer_initialize 2 3)) as HN by (simpl; lia).
  split; [exact H|]. split; [exact HN|]. split; [exact I|].
  exact (proj1 (Balancer_fails_only_by_overflow (K:=exact_kernel)
                  (KernelLaws0:=exact_kernel_laws) OtherMessage
                  (Balancer_initialize 2 3) (exact_world 7) H HN I)).
Defined.

Lemma Balancer_forwards_every_customer_witness :
  let customers := [exact_customer 8%positive 1 3 (Q2Qc 0);
                    exact_customer 9%positive 2 5 (Q2Qc 0)] in
  ∃ b' w' indices,
    route_all customers (Balancer_initialize 1 3) (exact_world 0) = Ok (b', w') ∧
    length indices = 2%nat ∧
    sent w' = zip_with (λ i customer, ("out", i, customer)) indices customers.
Proof.
  intros customers.
  destruct (sq_run (K:=exact_kernel) 3 customers ltac:(lia) 0
              (Balancer_initialize 1 3) (exact_world 0) (sq_inv_init 3)
              ltac:(lia) ltac:(unfold INT_MAX; simpl; lia))
    as (b' & w' & Hrun & _).
  destruct (Balancer_forwards_every_customer (K:=exact_kernel) customers
              _ _ _ _ Hrun) as (indices & Hlen & Hsent & _).
  exists b', w', indices. split; [exact Hrun|]. split; [exact Hlen|exact Hsent].
Defined.

Lemma round_robin_deals_evenly_witness :
  1 ≤ 3 ∧
  is_Ok (route_all (replicate 7 (exact_customer 9%positive 1 3 (Q2Qc 0)))
           (Balancer_initialize 0 3) (exact_world 0)).
Proof.
  split; [lia|].
  apply (proj1 (round_robin_deals_evenly (K:=exact_kernel) 3
                  (replicate 7 (exact_customer 9%positive 1 3 (Q2Qc 0)))
                  (exact_world 0) ltac:(lia))).
  unfold INT_MAX. simpl. lia.
Defined.

Lemma shortest_queue_deals_in_turn_witness :
  1 ≤ 3 ∧
  is_Ok (route_all (replicate 7 (exact_customer 9%positive 1 3 (Q2Qc 0)))
           (Balancer_initialize 1 3) (exact_world 0)).
Proof.
  split; [lia|].
  apply (proj1 (shortest_queue_deals_in_turn (K:=exact_kernel) 3
                  (replicate 7 (exact_customer 9%positive 1 3 (Q2Qc 0)))
                  (exact_world 0) ltac:(lia))).
  unfold INT_MAX. simpl. lia.
Defined.

Lemma Balancer_finish_reports_assignments_witness :
  Balancer_reachable (K:=exact_kernel) (Balancer_initialize 0 3) ∧
  1 ≤ numCashiers (Balancer_initialize 0 3) ∧
  ∃ scalars,
    Balancer_finish (K:=exact_kernel) (Balancer_initialize 0 3) = Ok scalars ∧
    scalar "cashier2_assignments" scalars = Some (Qc_of_Z 0).
Proof.
  assert (Balancer_reachable (K:=exact_kernel) (Balancer_initialize 0 3)) as H
    by constructor.
  assert (1 ≤ numCashiers (Balancer_initialize 0 3)) as HN by (simpl; lia).
  split; [exact H|]. split; [exact HN|].
  destruct (Balancer_finish_reports_assignments (K:=exact_kernel) _ H HN)
    as (scalars & Hok & _ & Hall & _).
  exists scalars. split; [exact Hok|].
  exact (Hall 2%nat 0 eq_refl).
Defined.

Lemma Shop_finish_reports_customers_sent_witness :
  Z.of_nat 3 < INT_MAX ∧
  @dgt exact_kernel (Q2Qc 2) (Q2Qc 0) = true ∧
  ∃ s0 s' w',
    Shop_initialize (K:=exact_kernel) (Q2Qc 2) (Q2Qc 0) = Ok s0 ∧
    Shop_run 3 s0 (exact_world 0) = Ok (s', w') ∧
    length (sent w') = 3%nat ∧
    scalar "customersGenerated" (Shop_finish s').2 = Some (Qc_of_Z 3).
Proof.
  assert (Z.of_nat 3 < INT_MAX) as H by (unfold INT_MAX; simpl; lia).
  assert (@dgt exact_kernel (Q2Qc 2) (Q2Qc 0) = true) as Hmean by reflexivity.
  split; [exact H|]. split; [exact Hmean|].
  destruct (Shop_finish_reports_customers_sent (K:=exact_kernel) 3
              (Q2Qc 2) (Q2Qc 0) (exact_world 0) H Hmean)
    as (s0 & s' & w' & H0 & Hrun & Hlen & _ & _ & Hscalar & _).
  exists s0, s', w'. split; [exact H0|]. split; [exact Hrun|].
  split; [exact Hlen|exact Hscalar].
Defined.
